(** * Retrieval-and-answer pipeline of the AI Knowledge Assistant

    A shallow embedding of [app/services/rag_service.py] (class [RAGService])
    and [app/services/chat_service.py] (class [ChatService]), followed by the
    properties of the pipeline that the specification states. The callers of
    the two services ([app/services/document_service.py],
    [app/utils/text_extractor.py], the chat endpoint of [app/api/v1/chat.py])
    and the assistant core [ai_core.py] are embedded as well, with
    properties of their own.

    Conventions of the embedding
    - Python objects that are mutated in place ([self.documents], [self.index],
      the Redis store) live in a [World]; every method is a function in the
      monad [M], which threads the world and may raise.  A raised exception
      keeps the mutations made before it, as in Python.
    - The two HTTP backends are oracles of an environment [Env]; they see the
      log of the calls made so far, so that a backend may answer the same
      request differently at different moments.
    - [float32] and [float] values are exact rationals ([Q]): every
      coordinate is a finite number and rounding is left out; overflow is
      not. A squared distance that reaches [FLT_MAX] does not fit a
      [float32], and the index search does not report the row.
    - A [str] is the string of the bytes of its UTF-8 encoding; its
      characters are the groups of bytes that [chars] cuts it into. *)

From Stdlib Require Import QArith Qfield.
From stdpp Require Import base list strings gmap sorting pretty.

Close Scope Q_scope.
Open Scope string_scope.
Open Scope list_scope.
Open Scope Z_scope.

(** ** Small Python prelude *)

Definition NL : string := String (Ascii.ascii_of_nat 10) EmptyString.
(** The no-break space U+00A0, in UTF-8. *)
Definition NBSP : string :=
  String (Ascii.ascii_of_nat 194) (String (Ascii.ascii_of_nat 160) EmptyString).
Definition DQ : string := String (Ascii.ascii_of_nat 34) EmptyString.

(** [sep.join(parts)] *)
Fixpoint str_join (sep : string) (parts : list string) : string :=
  match parts with
  | [] => EmptyString
  | [p] => p
  | p :: rest => p +:+ sep +:+ str_join sep rest
  end.

(** A byte that continues a UTF-8 sequence: [10xxxxxx]. *)
Definition is_continuation (c : Ascii.ascii) : bool :=
  let n := Ascii.nat_of_ascii c in (128 <=? n)%nat && (n <? 192)%nat.

(** The characters of a text, each as the bytes of its UTF-8 encoding: a
    new character starts at every byte that is not a continuation byte. *)
Fixpoint chars (s : string) : list string :=
  match s with
  | EmptyString => []
  | String c rest =>
      match rest with
      | EmptyString => [String c EmptyString]
      | String c' _ =>
          if is_continuation c' then
            match chars rest with
            | ch :: more => String c ch :: more
            | [] => [String c EmptyString]
            end
          else String c EmptyString :: chars rest
      end
  end.

(** [''.join(parts)] *)
Fixpoint str_concat (parts : list string) : string :=
  match parts with
  | [] => EmptyString
  | p :: rest => p +:+ str_concat rest
  end.

(** [len(s)]: the number of characters. *)
Definition py_len (s : string) : nat := length (chars s).

(** The bytes of a character, as numbers. *)
Definition codes (ch : string) : list nat :=
  map Ascii.nat_of_ascii (String.list_ascii_of_string ch).

(** [ch.isspace()] for one character: U+0009 to U+000D, U+001C to U+0020,
    U+0085, U+00A0, U+1680, U+2000 to U+200A, U+2028, U+2029, U+202F,
    U+205F and U+3000. *)
Definition is_space (ch : string) : bool :=
  match codes ch with
  | [n] => ((9 <=? n) && (n <=? 13) || (28 <=? n) && (n <=? 32))%nat
  | [a; b] => ((a =? 194) && ((b =? 133) || (b =? 160)))%nat
  | [a; b; c] =>
      ((a =? 225) && (b =? 154) && (c =? 128)
       || (a =? 226) && (b =? 128) &&
          ((128 <=? c) && (c <=? 138) || (c =? 168) || (c =? 169) || (c =? 175))
       || (a =? 226) && (b =? 129) && (c =? 159)
       || (a =? 227) && (b =? 128) && (c =? 128))%nat
  | _ => false
  end.

Fixpoint lstrip (l : list string) : list string :=
  match l with
  | ch :: rest => if is_space ch then lstrip rest else l
  | [] => []
  end.

Fixpoint rstrip (l : list string) : list string :=
  match l with
  | [] => []
  | ch :: rest =>
      match rstrip rest with
      | [] => if is_space ch then [] else [ch]
      | r => ch :: r
      end
  end.

(** [s.strip()]: the text without the white-space characters at its two
    ends. *)
Definition strip (s : string) : string := str_concat (rstrip (lstrip (chars s))).

(** Exceptions that the two services can see. *)
Inductive Exn : Type :=
  | ConnectionError (msg : string)
  | HTTPError (msg : string)
  | KeyError (key : string)
  | ValueError (msg : string)
  | AssertionError
  | IndexError.

(** [str(e)] *)
Definition str_exn (e : Exn) : string :=
  match e with
  | ConnectionError msg => msg
  | HTTPError msg => msg
  | KeyError key => "'" +:+ key +:+ "'"
  | ValueError msg => msg
  | AssertionError => EmptyString
  | IndexError => "list index out of range"
  end.

(** [l[i]] for a Python list and a signed integer. *)
Definition py_getitem {A} (l : list A) (i : Z) : Exn + A :=
  let n := Z.of_nat (length l) in
  let j := if i <? 0 then i + n else i in
  if (0 <=? j) && (j <? n) then
    match l !! Z.to_nat j with
    | Some x => inr x
    | None => inl IndexError
    end
  else inl IndexError.

(** ** Settings ([app/core/config.py], default values) *)

Definition CACHE_TTL : Z := 3600.
Definition TOP_K_RESULTS : Z := 3.

(** ** Data model *)

(** An embedding: a one-dimensional [float32] array. *)
Definition vec : Type := list Q.

(** One entry of [RAGService.documents]. *)
Record Chunk : Type := {
  document_id : Z;
  filename : string;
  chunk_index : nat;
  content : string
}.

(** One entry of the source list built by [get_context_for_query]. *)
Record Source : Type := {
  src_document_id : Z;
  src_filename : string;
  relevance_score : Q
}.

(** The dictionary that [query] stores in the cache. [json.dumps] followed by
    [json.loads] is the identity on it. *)
Record CachedResponse : Type := {
  response : string;
  sources : list Source
}.

(** ** FAISS: [IndexFlatL2]

    The library is not part of the repository; this is its documented
    behaviour for a flat index: exact search by squared Euclidean distance,
    rows numbered by insertion order. *)

Record IndexFlatL2 : Type := {
  d : nat;
  xb : list vec
}.

Definition ntotal (ix : IndexFlatL2) : nat := length (xb ix).

Definition l2sqr (x y : vec) : Q :=
  foldr Qplus 0%Q (zip_with (fun a b => ((a - b) * (a - b))%Q) x y).

Definition dist_le (a b : Q * Z) : Prop := (a.1 <= b.1)%Q.

#[global] Instance dist_le_dec (a b : Q * Z) : Decision (dist_le a b).
Proof. unfold dist_le, Qle. apply _. Defined.

(** [np.array(rows, dtype='float32')] followed by [index.add]: the rows must
    form an [n x d] matrix. An empty list gives a one-dimensional array, which
    [add] cannot unpack into [(n, d)]; ragged rows are refused by numpy; a
    width other than [d] fails the assertion of [add]. *)
Definition faiss_add (ix : IndexFlatL2) (rows : list vec) : Exn + IndexFlatL2 :=
  match rows with
  | [] => inl (ValueError "not enough values to unpack (expected 2, got 1)")
  | r :: _ =>
      if forallb (fun v => (length v =? length r)%nat) rows then
        if (length r =? d ix)%nat then inr {| d := d ix; xb := xb ix ++ rows |}
        else inl AssertionError
      else inl (ValueError "inhomogeneous shape")
  end.

(** All rows with their distance to [q], nearest first. *)
Definition ranked (ix : IndexFlatL2) (q : vec) : list (Q * Z) :=
  merge_sort dist_le (imap (fun i x => (l2sqr q x, Z.of_nat i)) (xb ix)).

(** The largest finite [float32], [2^128 - 2^104]. *)
Definition FLT_MAX : Q := Qmake (2 ^ 128 - 2 ^ 104) 1.

(** A result slot starts with the distance [FLT_MAX] and the label [-1];
    a row takes a slot only when its distance is smaller than the distance
    in the slot. *)
Definition no_result : Q * Z := (FLT_MAX, -1).

Definition below_max (a : Q * Z) : Prop := (a.1 < FLT_MAX)%Q.

#[global] Instance below_max_dec (a : Q * Z) : Decision (below_max a).
Proof. unfold below_max, Qlt. apply _. Defined.

(** The rows that a search can report, nearest first: a row whose squared
    distance overflows [float32] is never smaller than the initial value of
    a slot. *)
Definition found (ix : IndexFlatL2) (q : vec) : list (Q * Z) :=
  filter below_max (ranked ix q).

(** [index.search(np.array([q]), k)], as the list of [(distance, label)]
    pairs of the single query row: always [k] pairs, the rows found first,
    then the slots that no row has taken. *)
Definition faiss_search (ix : IndexFlatL2) (q : vec) (k : Z) : Exn + list (Q * Z) :=
  if negb (length q =? d ix)%nat then inl AssertionError
  else if negb (0 <? k) then inl AssertionError
  else inr (resize (Z.to_nat k) no_result (found ix q)).

(** ** Redis *)

(** A key holds a value and the time at which it expires. *)
Record Redis : Type := {
  reachable : bool;
  store : gmap string (CachedResponse * Z)
}.

(** ** The world and the environment *)

Inductive Event : Type :=
  | PostEmbeddings (prompt : string)
  | PostGenerate (prompt : string).

(** What [requests.post] can give: a transport failure, or a reply whose
    status may be an error and whose JSON body may lack the wanted field. *)
Inductive Reply (A : Type) : Type :=
  | TransportFailure (msg : string)
  | HttpReply (status_error : option string) (field : option A).
Arguments TransportFailure {A} msg.
Arguments HttpReply {A} status_error field.

Record Env : Type := {
  split_text : string -> list string;
  md5_hexdigest : string -> string;
  embeddings_api : list Event -> string -> Reply vec;
  generate_api : list Event -> string -> Reply string
}.

Record RAGService : Type := {
  index : IndexFlatL2;
  documents : list Chunk
}.

Record World : Type := {
  rag : RAGService;
  redis_client : option Redis;
  clock : Z;
  calls : list Event
}.

(** ** The monad *)

Definition M (A : Type) : Type := World -> World * (Exn + A).

Definition ret {A} (a : A) : M A := fun w => (w, inr a).
Definition raise {A} (e : Exn) : M A := fun w => (w, inl e).
Definition bind {A B} (m : M A) (k : A -> M B) : M B :=
  fun w => match m w with
           | (w', inr a) => k a w'
           | (w', inl e) => (w', inl e)
           end.
(** [try: m  except Exception as e: h e] *)
Definition try_except {A} (m : M A) (h : Exn -> M A) : M A :=
  fun w => match m w with
           | (w', inr a) => (w', inr a)
           | (w', inl e) => h e w'
           end.
Definition get_world : M World := fun w => (w, inr w).
Definition lift {A} (r : Exn + A) : M A := fun w => (w, r).

Notation "x <- m ;; k" := (bind m (fun x => k))
  (at level 62, m at next level, right associativity, only parsing).
Notation "m ;;; k" := (bind m (fun _ => k))
  (at level 62, right associativity, only parsing).

Definition set_rag (r : RAGService) : M unit :=
  fun w => ({| rag := r; redis_client := redis_client w;
               clock := clock w; calls := calls w |}, inr tt).
Definition set_redis (r : Redis) : M unit :=
  fun w => ({| rag := rag w; redis_client := Some r;
               clock := clock w; calls := calls w |}, inr tt).
Definition log_call (e : Event) : M unit :=
  fun w => ({| rag := rag w; redis_client := redis_client w;
               clock := clock w; calls := calls w ++ [e] |}, inr tt).

(** ** [RAGService] *)

(** [self.dimension] *)
Definition dimension : nat := 768.

Section Services.
Context (E : Env).

(** [_initialize_index] *)
Definition _initialize_index : M unit :=
  set_rag {| index := {| d := dimension; xb := [] |}; documents := [] |}.

(** [_save_index] writes the two files and swallows every error: it leaves
    the in-memory service as it is. *)
Definition _save_index : M unit := ret tt.

(** [_get_embedding]: the handler logs and re-raises. *)
Definition _get_embedding (text : string) : M vec :=
  w <- get_world ;;
  log_call (PostEmbeddings text) ;;;
  match embeddings_api E (calls w) text with
  | TransportFailure msg => raise (ConnectionError msg)
  | HttpReply (Some err) _ => raise (HTTPError err)
  | HttpReply None None => raise (KeyError "embedding")
  | HttpReply None (Some embedding) => ret embedding
  end.

(** [self.documents.append(chunk)] *)
Definition documents_append (c : Chunk) : M unit :=
  w <- get_world ;;
  set_rag {| index := index (rag w); documents := documents (rag w) ++ [c] |}.

(** [self.index.add(np.array(embeddings, dtype='float32'))] *)
Definition index_add (embeddings : list vec) : M unit :=
  w <- get_world ;;
  ix <- lift (faiss_add (index (rag w)) embeddings) ;;
  set_rag {| index := ix; documents := documents (rag w) |}.

(** The loop [for i, chunk in enumerate(chunks)] of [index_document]. *)
Fixpoint embed_chunks (document_id : Z) (filename : string)
    (i : nat) (chunks : list string) (embeddings : list vec) : M (list vec) :=
  match chunks with
  | [] => ret embeddings
  | chunk :: rest =>
      embedding <- _get_embedding chunk ;;
      documents_append {| document_id := document_id; filename := filename;
                          chunk_index := i; content := chunk |} ;;;
      embed_chunks document_id filename (S i) rest (embeddings ++ [embedding])
  end.

Definition index_document (document_id : Z) (filename content : string) : M string :=
  let chunks := split_text E content in
  embeddings <- embed_chunks document_id filename 0 chunks [] ;;
  index_add embeddings ;;;
  _save_index ;;;
  ret ("doc_" +:+ pretty document_id +:+ "_" +:+ pretty (length chunks) +:+ "_chunks").

(** [1 / (1 + distance)] *)
Definition similarity (distance : Q) : Q := (1 / (1 + distance))%Q.

(** The loop [for distance, idx in zip(distances[0], indices[0])] of
    [search_similar]. *)
Fixpoint collect_results (documents : list Chunk) (hits : list (Q * Z))
    (results : list (Chunk * Q)) : Exn + list (Chunk * Q) :=
  match hits with
  | [] => inr results
  | (distance, idx) :: rest =>
      if idx <? Z.of_nat (length documents) then
        match py_getitem documents idx with
        | inl e => inl e
        | inr chunk =>
            collect_results documents rest (results ++ [(chunk, similarity distance)])
        end
      else collect_results documents rest results
  end.

Definition search_similar (query : string) (top_k : option Z) : M (list (Chunk * Q)) :=
  let top_k := default TOP_K_RESULTS top_k in
  w <- get_world ;;
  if (ntotal (index (rag w)) =? 0)%nat then ret []
  else
    query_embedding <- _get_embedding query ;;
    hits <- lift (faiss_search (index (rag w)) query_embedding
                    (Z.min top_k (Z.of_nat (ntotal (index (rag w)))))) ;;
    lift (collect_results (documents (rag w)) hits []).

(** The loop [for chunk_data, score in similar_chunks] of
    [get_context_for_query]. *)
Fixpoint context_loop (similar_chunks : list (Chunk * Q))
    (context_parts : list string) (sources : list Source) (seen_docs : gset Z)
    : list string * list Source :=
  match similar_chunks with
  | [] => (context_parts, sources)
  | (chunk_data, score) :: rest =>
      let context_parts := context_parts ++ [content chunk_data] in
      let doc_id := document_id chunk_data in
      if decide (doc_id ∈ seen_docs) then
        context_loop rest context_parts sources seen_docs
      else
        context_loop rest context_parts
          (sources ++ [{| src_document_id := doc_id;
                          src_filename := filename chunk_data;
                          relevance_score := score |}])
          ({[doc_id]} ∪ seen_docs)
  end.

Definition SEPARATOR : string := NL +:+ NL +:+ "---" +:+ NL +:+ NL.

Definition get_context_for_query (query : string) : M (string * list Source) :=
  similar_chunks <- search_similar query None ;;
  match similar_chunks with
  | [] => ret (EmptyString, [])
  | _ =>
      let r := context_loop similar_chunks [] [] ∅ in
      ret (str_join SEPARATOR r.1, r.2)
  end.

End Services.

(** ** [ChatService] *)

(** [redis_client.get(key)]: an expired key reads as absent. *)
Definition redis_get (r : Redis) (now : Z) (key : string) : Exn + option CachedResponse :=
  if reachable r then
    inr (match store r !! key with
         | Some (value, expires_at) => if now <? expires_at then Some value else None
         | None => None
         end)
  else inl (ConnectionError "Error connecting to Redis").

(** [redis_client.setex(key, ttl, value)] *)
Definition redis_setex (r : Redis) (now : Z) (key : string) (ttl : Z)
    (value : CachedResponse) : Exn + Redis :=
  if reachable r then
    inr {| reachable := reachable r; store := <[key := (value, now + ttl)]> (store r) |}
  else inl (ConnectionError "Error connecting to Redis").

Definition NO_DOCUMENTS : string :=
  "I don't have any documents to answer your question. Please upload some documents first.".

Section Chat.
Context (E : Env).

(** [_get_cache_key] *)
Definition _get_cache_key (query : string) : string :=
  "chat:" +:+ md5_hexdigest E query.

(** [_get_cached_response]: every cache fault reads as a miss. *)
Definition _get_cached_response (query : string) : M (option CachedResponse) :=
  w <- get_world ;;
  match redis_client w with
  | None => ret None
  | Some r =>
      try_except (lift (redis_get r (clock w) (_get_cache_key query)))
                 (fun _ => ret None)
  end.

(** [_cache_response]: every cache fault is swallowed. *)
Definition _cache_response (query : string) (resp : CachedResponse) : M unit :=
  w <- get_world ;;
  match redis_client w with
  | None => ret tt
  | Some r =>
      try_except
        (r' <- lift (redis_setex r (clock w) (_get_cache_key query) CACHE_TTL resp) ;;
         set_redis r')
        (fun _ => ret tt)
  end.

(** [_build_prompt] *)
Definition _build_prompt (query context : string) : string :=
  "You are an AI assistant that answers questions based ONLY on the provided context from uploaded documents." +:+ NL +:+
  NL +:+
  "CRITICAL RULES:" +:+ NL +:+
  "1. Answer ONLY using information from the context below" +:+ NL +:+
  "2. If the context doesn't contain relevant information, say " +:+ DQ +:+
  "I don't have enough information in the uploaded documents to answer this question." +:+ DQ +:+ NL +:+
  "3. Do NOT use external knowledge or make assumptions" +:+ NL +:+
  "4. Cite specific parts of the context when answering" +:+ NL +:+
  "5. Be concise and accurate" +:+ NL +:+
  NL +:+
  "CONTEXT FROM DOCUMENTS:" +:+ NL +:+
  context +:+ NL +:+
  NL +:+
  "USER QUESTION:" +:+ NL +:+
  query +:+ NL +:+
  NL +:+
  "ANSWER:".

(** The body of the [try] block of [query]: the call to [/api/generate]. *)
Definition post_generate (prompt : string) : M string :=
  w <- get_world ;;
  log_call (PostGenerate prompt) ;;;
  match generate_api E (calls w) prompt with
  | TransportFailure msg => raise (ConnectionError msg)
  | HttpReply (Some err) _ => raise (HTTPError err)
  | HttpReply None None => raise (KeyError "response")
  | HttpReply None (Some text) => ret (strip text)
  end.

Definition query (user_query : string) : M (string * list Source * bool) :=
  cached <- _get_cached_response user_query ;;
  match cached with
  | Some c => ret (response c, sources c, true)
  | None =>
      r <- get_context_for_query E user_query ;;
      let context := r.1 in
      let sources := r.2 in
      if decide (context = EmptyString) then ret (NO_DOCUMENTS, [], false)
      else
        let prompt := _build_prompt user_query context in
        r <- try_except
               (response <- post_generate prompt ;; ret (response, sources))
               (fun e => ret ("Error generating response: " +:+ str_exn e, [])) ;;
        let response := r.1 in
        let sources := r.2 in
        _cache_response user_query {| response := response; sources := sources |} ;;;
        ret (response, sources, false)
  end.

End Chat.

(** ** Persistence of the index ([_load_index], [_save_index])

    The two files [faiss_index.bin] and [faiss_documents.pkl]. Writing and
    reading back a value is the identity (as for JSON above); a file can
    also be absent, or present and unreadable. *)

Inductive File (A : Type) : Type :=
  | Missing
  | Corrupt
  | Stored (a : A).
Arguments Missing {A}.
Arguments Corrupt {A}.
Arguments Stored {A} a.

Record Disk : Type := {
  faiss_index_bin : File IndexFlatL2;
  faiss_documents_pkl : File (list Chunk)
}.

(** [os.path.exists] *)
Definition file_exists {A} (f : File A) : bool :=
  match f with Missing => false | _ => true end.

(** [faiss.read_index] and [pickle.load] *)
Definition read_file {A} (f : File A) : Exn + A :=
  match f with
  | Stored a => inr a
  | Corrupt => inl (ValueError "could not read file")
  | Missing => inl (ValueError "no such file")
  end.

(** [_load_index]: both files must exist; any error while reading them
    falls back to [_initialize_index]. *)
Definition _load_index (disk : Disk) : M unit :=
  if file_exists (faiss_index_bin disk) && file_exists (faiss_documents_pkl disk)
  then
    try_except
      (ix <- lift (read_file (faiss_index_bin disk)) ;;
       w <- get_world ;;
       set_rag {| index := ix; documents := documents (rag w) |} ;;;
       docs <- lift (read_file (faiss_documents_pkl disk)) ;;
       set_rag {| index := ix; documents := docs |})
      (fun _ => _initialize_index)
  else _initialize_index.

(** How a run of [_save_index] can go: both files written, or an error in
    the first or in the second write, which leaves that file in some state
    and is swallowed. *)
Inductive SaveOutcome : Type :=
  | Saved
  | IndexWriteFails (remains : File IndexFlatL2)
  | DocumentsWriteFails (remains : File (list Chunk)).

(** The files after [_save_index]: [faiss.write_index] first, then
    [pickle.dump]; the first error ends the [try] block. *)
Definition save_index_files (o : SaveOutcome) (r : RAGService) (disk : Disk) : Disk :=
  match o with
  | Saved =>
      {| faiss_index_bin := Stored (index r);
         faiss_documents_pkl := Stored (documents r) |}
  | IndexWriteFails remains =>
      {| faiss_index_bin := remains;
         faiss_documents_pkl := faiss_documents_pkl disk |}
  | DocumentsWriteFails remains =>
      {| faiss_index_bin := Stored (index r); faiss_documents_pkl := remains |}
  end.


(** ** Text extraction ([app/utils/text_extractor.py]) *)

(** [str.lower] on the letters A to Z. Every other character is left as
    it is: the result is only tested for the endings [.pdf] and [.txt],
    and no other character becomes one of their letters when
    lower-cased. *)
Definition lower_char (c : Ascii.ascii) : Ascii.ascii :=
  let n := Ascii.nat_of_ascii c in
  if (65 <=? n)%nat && (n <=? 90)%nat then Ascii.ascii_of_nat (n + 32) else c.

Fixpoint lower (s : string) : string :=
  match s with
  | EmptyString => EmptyString
  | String c rest => String (lower_char c) (lower rest)
  end.

(** [s.endswith(suffix)] *)
Definition endswith (s suffix : string) : bool :=
  (String.length suffix <=? String.length s)%nat &&
  String.eqb (String.substring (String.length s - String.length suffix)
                               (String.length suffix) s) suffix.

(** [fastapi.HTTPException] *)
Record HTTPException : Type := {
  status_code : Z;
  detail : string
}.

(** The parsers that the extractor calls: [PdfReader] with the text of each
    page, and [bytes.decode] for a named encoding ([None] stands for
    [UnicodeDecodeError]). *)
Record Parsers : Type := {
  pdf_pages : string -> Exn + list string;
  decode : string -> string -> option string
}.

(** [extract_from_pdf] *)
Definition extract_from_pdf (P : Parsers) (content : string) : Exn + string :=
  match pdf_pages P content with
  | inl e => inl e
  | inr pages =>
      let text_parts :=
        filter (fun text : string => text <> EmptyString) pages in
      let full_text := str_join (NL +:+ NL) text_parts in
      match strip full_text with
      | EmptyString => inl (ValueError "No text could be extracted from PDF")
      | _ => inr full_text
      end
  end.

(** The loop [for encoding in encodings] of [extract_from_txt]. *)
Fixpoint try_encodings (P : Parsers) (encodings : list string) (content : string)
    : Exn + string :=
  match encodings with
  | [] => inl (ValueError "Could not decode text file with supported encodings")
  | encoding :: rest =>
      match decode P encoding content with
      | Some text =>
          match strip text with
          | EmptyString => try_encodings P rest content
          | _ => inr text
          end
      | None => try_encodings P rest content
      end
  end.

(** [extract_from_txt] *)
Definition extract_from_txt (P : Parsers) (content : string) : Exn + string :=
  try_encodings P ["utf-8"; "latin-1"; "cp1252"] content.

(** What the services see of an uploaded file. *)
Record UploadFile : Type := {
  upload_filename : string;
  upload_size : Z;
  upload_bytes : string
}.

(** [extract_text_from_file] *)
Definition extract_text_from_file (P : Parsers) (file : UploadFile)
    : HTTPException + string :=
  let filename := lower (upload_filename file) in
  let content := upload_bytes file in
  let wrap (r : Exn + string) : HTTPException + string :=
    match r with
    | inr text => inr text
    | inl e => inl {| status_code := 500;
                      detail := "Error extracting text from file: " +:+ str_exn e |}
    end in
  if endswith filename ".pdf" then wrap (extract_from_pdf P content)
  else if endswith filename ".txt" then wrap (extract_from_txt P content)
  else inl {| status_code := 400;
              detail := "Unsupported file format. Only PDF and TXT are allowed." |}.

(** ** Document upload ([app/services/document_service.py]) *)

Definition MAX_FILE_SIZE : Z := 10 * 1024 * 1024.
Definition ALLOWED_EXTENSIONS : list string := [".pdf"; ".txt"].

(** A row of the [documents] table. *)
Record Document : Type := {
  doc_id : Z;
  doc_filename : string;
  doc_content : string;
  doc_user_id : Z;
  doc_embedding_id : option string
}.

(** A row of the [chat_history] table. *)
Record ChatHistory : Type := {
  chat_user_id : Z;
  chat_query : string;
  chat_response : string;
  chat_sources : list Source
}.

(** The application: the two services and the two tables they write to.
    The database is taken to be reliable; ids are handed out in order. *)
Record App : Type := {
  world : World;
  documents_table : list Document;
  next_document_id : Z;
  chat_history_table : list ChatHistory
}.

(** [DocumentRepository.create] *)
Definition doc_repo_create (filename content : string) (user_id : Z) (a : App)
    : App * Document :=
  let document := {| doc_id := next_document_id a; doc_filename := filename;
                     doc_content := content; doc_user_id := user_id;
                     doc_embedding_id := None |} in
  ({| world := world a;
      documents_table := documents_table a ++ [document];
      next_document_id := next_document_id a + 1;
      chat_history_table := chat_history_table a |}, document).

(** [document.embedding_id = embedding_id; db.commit()] *)
Definition set_embedding_id (id : Z) (embedding_id : string) (rows : list Document)
    : list Document :=
  map (fun row => if doc_id row =? id
                  then {| doc_id := doc_id row; doc_filename := doc_filename row;
                          doc_content := doc_content row;
                          doc_user_id := doc_user_id row;
                          doc_embedding_id := Some embedding_id |}
                  else row) rows.

(** [DocumentService.upload_document] *)
Definition upload_document (E : Env) (P : Parsers) (file : UploadFile)
    (user_id : Z) (a : App) : App * (HTTPException + Document) :=
  if MAX_FILE_SIZE <? upload_size file then
    (a, inl {| status_code := 413;
               detail := "File too large. Maximum size is 10.0MB" |})
  else
    let filename := lower (upload_filename file) in
    if negb (existsb (endswith filename) ALLOWED_EXTENSIONS) then
      (a, inl {| status_code := 400;
                 detail := "Invalid file type. Allowed: " +:+
                           str_join ", " ALLOWED_EXTENSIONS |})
    else
      match extract_text_from_file P file with
      | inl err => (a, inl err)
      | inr content =>
          if (py_len (strip content) <? 50)%nat then
            (a, inl {| status_code := 400;
                       detail := "Document content is too short or empty" |})
          else
            let '(a1, document) :=
              doc_repo_create (upload_filename file) content user_id a in
            match index_document E (doc_id document) (doc_filename document)
                    content (world a1) with
            | (w', inr embedding_id) =>
                ({| world := w';
                    documents_table :=
                      set_embedding_id (doc_id document) embedding_id
                        (documents_table a1);
                    next_document_id := next_document_id a1;
                    chat_history_table := chat_history_table a1 |},
                 inr {| doc_id := doc_id document;
                        doc_filename := doc_filename document;
                        doc_content := doc_content document;
                        doc_user_id := doc_user_id document;
                        doc_embedding_id := Some embedding_id |})
            | (w', inl e) =>
                ({| world := w';
                    documents_table := documents_table a1;
                    next_document_id := next_document_id a1;
                    chat_history_table := chat_history_table a1 |},
                 inl {| status_code := 500;
                        detail := "Document saved but indexing failed: "
                                  +:+ str_exn e |})
            end
      end.

(** ** Chat endpoint ([app/api/v1/chat.py]) *)

(** [ChatRepository.create] *)
Definition chat_repo_create (user_id : Z) (query response : string)
    (sources : list Source) (a : App) : App :=
  {| world := world a; documents_table := documents_table a;
     next_document_id := next_document_id a;
     chat_history_table :=
       chat_history_table a ++
       [{| chat_user_id := user_id; chat_query := query;
           chat_response := response; chat_sources := sources |}] |}.

(** [query_chat]: the answer is stored in the history unless it came from
    the cache. An exception of [query] is not caught here. *)
Definition query_chat (E : Env) (user_id : Z) (user_query : string) (a : App)
    : App * (Exn + (string * list Source * bool)) :=
  match query E user_query (world a) with
  | (w', inl e) =>
      ({| world := w'; documents_table := documents_table a;
          next_document_id := next_document_id a;
          chat_history_table := chat_history_table a |}, inl e)
  | (w', inr (response_text, sources, cached)) =>
      let a1 := {| world := w'; documents_table := documents_table a;
                   next_document_id := next_document_id a;
                   chat_history_table := chat_history_table a |} in
      let a2 := if cached then a1
                else chat_repo_create user_id user_query response_text sources a1 in
      (a2, inr (response_text, sources, cached))
  end.


(** ** The assistant core ([ai_core.py]) *)

(** An entry of [conversation_history]. *)
Record Message : Type := {
  role : string;
  message_content : string;
  message_timestamp : string
}.

Record VeritasAI : Type := {
  model_name : string;
  temperature : Q;
  conversation_history : list Message;
  system_prompt : string
}.

(** The dictionary returned by [analyze]. *)
Record Analysis : Type := {
  analysis_input : string;
  analysis_response : string;
  analysis_confidence : Q;
  analysis_timestamp : string
}.

(** The dictionary returned by [get_stats]. *)
Record Stats : Type := {
  total_messages : nat;
  stats_model : string;
  stats_temperature : Q;
  user_messages : nat;
  ai_messages : nat
}.

(** [_generate_response] *)
Definition _generate_response (input_text : string) : string :=
  "Ho analizzato il tuo input: '" +:+ input_text +:+
  "'. Questa è una risposta di esempio.".

(** [analyze]; [now1], [now2] and [now3] are what the three calls of
    [datetime.now().isoformat()] give. *)
Definition analyze (now1 now2 now3 : string) (input_text : string)
    (ai : VeritasAI) : VeritasAI * Analysis :=
  let history1 := conversation_history ai ++
    [{| role := "user"; message_content := input_text;
        message_timestamp := now1 |}] in
  let response := _generate_response input_text in
  let history2 := history1 ++
    [{| role := "assistant"; message_content := response;
        message_timestamp := now2 |}] in
  ({| model_name := model_name ai; temperature := temperature ai;
      conversation_history := history2; system_prompt := system_prompt ai |},
   {| analysis_input := input_text; analysis_response := response;
      analysis_confidence := (95 # 100)%Q; analysis_timestamp := now3 |}).

(** [clear_history] *)
Definition clear_history (ai : VeritasAI) : VeritasAI :=
  {| model_name := model_name ai; temperature := temperature ai;
     conversation_history := []; system_prompt := system_prompt ai |}.

(** [set_temperature]: the assistant after the call, and what the call
    returns or raises. *)
Definition set_temperature (t : Q) (ai : VeritasAI) : VeritasAI * (Exn + unit) :=
  if Qle_bool 0 t && Qle_bool t 1 then
    ({| model_name := model_name ai; temperature := t;
        conversation_history := conversation_history ai;
        system_prompt := system_prompt ai |}, inr tt)
  else (ai, inl (ValueError "La temperature deve essere tra 0.0 e 1.0")).

(** [get_stats] *)
Definition get_stats (ai : VeritasAI) : Stats :=
  {| total_messages := length (conversation_history ai);
     stats_model := model_name ai;
     stats_temperature := temperature ai;
     user_messages :=
       length (filter (fun m => role m = "user") (conversation_history ai));
     ai_messages :=
       length (filter (fun m => role m = "assistant") (conversation_history ai)) |}.

(** [text[:n]] for a signed [n]: the first [n] characters, or all but the
    last [-n]. *)
Definition py_prefix (s : string) (n : Z) : string :=
  if 0 <=? n then str_concat (take (Z.to_nat n) (chars s))
  else str_concat (take (py_len s - Z.to_nat (- n)) (chars s)).

(** [VeritasAnalyzer.summarize] *)
Definition summarize (text : string) (max_length : Z) : string :=
  if Z.of_nat (py_len text) <=? max_length then text
  else py_prefix text max_length +:+ "...".

(** A run of [analyze] calls, each with its input and its three clock
    readings. *)
Fixpoint analyze_all (inputs : list (string * (string * string * string)))
    (ai : VeritasAI) : VeritasAI :=
  match inputs with
  | [] => ai
  | (input_text, (now1, now2, now3)) :: rest =>
      analyze_all rest (analyze now1 now2 now3 input_text ai).1
  end.

(** A run of [set_temperature] calls by a caller that goes on after a
    refusal. *)
Fixpoint set_temperatures (ts : list Q) (ai : VeritasAI) : VeritasAI :=
  match ts with
  | [] => ai
  | t :: rest => set_temperatures rest (set_temperature t ai).1
  end.

(** A temperature that [set_temperature] accepts. *)
Definition in_range (t : Q) : Prop := (0 <= t)%Q /\ (t <= 1)%Q.

#[global] Instance in_range_dec (t : Q) : Decision (in_range t).
Proof. unfold in_range, Qle. apply _. Defined.

(** [_load_system_prompt] *)
Definition _load_system_prompt : string :=
  NL +:+
  "        Sei Veritas, un assistente AI professionale e preciso." +:+ NL +:+
  "        Il tuo obiettivo è fornire risposte accurate, verificabili e utili." +:+ NL +:+
  "        Mantieni sempre un tono professionale ma amichevole." +:+ NL +:+
  "        ".

(** [VeritasAI()] with its default arguments. *)
Definition veritas_default : VeritasAI :=
  {| model_name := "gpt-4"; temperature := (7 # 10)%Q;
     conversation_history := []; system_prompt := _load_system_prompt |}.


(** The two messages that one [analyze] call appends. *)
Definition exchange (x : string * (string * string * string)) : list Message :=
  let '(input_text, (now1, now2, _)) := x in
  [{| role := "user"; message_content := input_text; message_timestamp := now1 |};
   {| role := "assistant"; message_content := _generate_response input_text;
      message_timestamp := now2 |}].


(** ** Definitions used to state the properties *)

(** The metadata records of [chunks], numbered from [i]. *)
Fixpoint chunk_records (document_id : Z) (filename : string) (i : nat)
    (chunks : list string) : list Chunk :=
  match chunks with
  | [] => []
  | chunk :: rest =>
      {| document_id := document_id; filename := filename;
         chunk_index := i; content := chunk |}
      :: chunk_records document_id filename (S i) rest
  end.

(** Row alignment: one metadata record per vector. *)
Definition aligned (r : RAGService) : Prop :=
  ntotal (index r) = length (documents r).

(** A caller indexing several documents in turn, stopping at the first
    failure. *)
Fixpoint index_documents (E : Env) (docs : list (Z * string * string))
    : M (list string) :=
  match docs with
  | [] => ret []
  | (document_id, filename, content) :: rest =>
      embedding_id <- index_document E document_id filename content ;;
      ids <- index_documents E rest ;;
      ret (embedding_id :: ids)
  end.

(** What the loop of [search_similar] keeps of one hit of the index search:
    nothing when the label is not below the length of the chunk store,
    otherwise the record that Python indexing finds for the label, with
    the similarity of the hit. *)
Definition kept (documents : list Chunk) (hit : Q * Z) : option (Chunk * Q) :=
  if hit.2 <? Z.of_nat (length documents) then
    match py_getitem documents hit.2 with
    | inr chunk => Some (chunk, similarity hit.1)
    | inl _ => None
    end
  else None.

(** One hit of an index search for [q]: a slot that no row has taken, or
    a row with its squared distance to [q]. *)
Definition hit_of (ix : IndexFlatL2) (q : vec) (h : Q * Z) : Prop :=
  h = no_result \/
  (h.1 < FLT_MAX)%Q /\
  exists i x, xb ix !! i = Some x /\ h.2 = Z.of_nat i /\ h.1 = l2sqr q x.

(** Non-increasing similarity. *)
Definition sim_ge (a b : Chunk * Q) : Prop := (b.2 <= a.2)%Q.
(** Strictly decreasing similarity. *)
Definition sim_gt (a b : Chunk * Q) : Prop := (b.2 < a.2)%Q.

(** Document ids in order of first occurrence, each once. *)
Fixpoint first_occurrences (ids : list Z) : list Z :=
  match ids with
  | [] => []
  | id :: rest => id :: filter (fun x => x <> id) (first_occurrences rest)
  end.

(** The highest-ranked chunk of a document: the first result that belongs
    to it. *)
Definition top_chunk (results : list (Chunk * Q)) (id : Z) : option (Chunk * Q) :=
  find (fun r => bool_decide (document_id r.1 = id)) results.

Definition result_ids (results : list (Chunk * Q)) : list Z :=
  map (fun r => document_id r.1) results.

(** The source reference of one result. *)
Definition source_of (r : Chunk * Q) : Source :=
  {| src_document_id := document_id r.1; src_filename := filename r.1;
     relevance_score := r.2 |}.

(** The sources that the loop of [get_context_for_query] appends for
    [results] when it starts with the ids [seen]. *)
Fixpoint loop_sources (results : list (Chunk * Q)) (seen : gset Z) : list Source :=
  match results with
  | [] => []
  | r :: rest =>
      if decide (document_id r.1 ∈ seen) then loop_sources rest seen
      else source_of r :: loop_sources rest ({[document_id r.1]} ∪ seen)
  end.

(** What a cache read for [query] finds in world [w]: [None] without a
    client, on a cache fault, and for an absent or expired key. *)
Definition cache_lookup (E : Env) (w : World) (query : string) : option CachedResponse :=
  match redis_client w with
  | None => None
  | Some r =>
      match redis_get r (clock w) (_get_cache_key E query) with
      | inr v => v
      | inl _ => None
      end
  end.

(** The world after [_cache_response]: unchanged without a client or on a
    cache fault. *)
Definition cache_store (E : Env) (query : string) (resp : CachedResponse)
    (w : World) : World :=
  match redis_client w with
  | None => w
  | Some r =>
      match redis_setex r (clock w) (_get_cache_key E query) CACHE_TTL resp with
      | inr r' => {| rag := rag w; redis_client := Some r';
                     clock := clock w; calls := calls w |}
      | inl _ => w
      end
  end.

(** Time passes: the same world at time [t]. *)
Definition at_time (w : World) (t : Z) : World :=
  {| rag := rag w; redis_client := redis_client w; clock := t; calls := calls w |}.

(** The answer that [query] gives when generation raises [e]. *)
Definition error_answer (e : Exn) : string :=
  "Error generating response: " +:+ str_exn e.


(** Non-increasing relevance score. *)
Definition src_ge (a b : Source) : Prop :=
  (relevance_score b <= relevance_score a)%Q.


(** The last character of a text. *)
Definition last_char (s : string) : option string := last (chars s).

(** The first character of a text. *)
Definition first_char (s : string) : option string := head (chars s).

(** A text made of white space only (the empty text included). *)
Definition blank (s : string) : bool := forallb is_space (chars s).

(** The bytes of a character after the first are continuation bytes. *)
Definition one_char (ch : string) : Prop :=
  match ch with
  | EmptyString => False
  | String _ rest =>
      forallb is_continuation (String.list_ascii_of_string rest) = true
  end.

(** A text that does not start in the middle of a character. *)
Definition starts_char (s : string) : Prop :=
  match s with
  | EmptyString => True
  | String c _ => is_continuation c = false
  end.

(** A list of characters as [chars] produces them: every element is one
    character, and every element after the first starts one. *)
Definition char_list (l : list string) : Prop :=
  Forall one_char l /\ Forall starts_char (tail l).


(** ** Concrete environments and worlds used by the examples *)

(** A stand-in for the text splitter: consecutive pieces of [n] characters,
    which is what a character splitter with no overlap gives on a text
    without separators. *)
Fixpoint split_fixed_aux (n k : nat) (cur s : string) : list string :=
  match s with
  | EmptyString => match cur with EmptyString => [] | _ => [cur] end
  | String c rest =>
      match k with
      | O => cur :: split_fixed_aux n (n - 1) (String c EmptyString) rest
      | S k' => split_fixed_aux n k' (cur +:+ String c EmptyString) rest
      end
  end.
Definition split_fixed (n : nat) (s : string) : list string :=
  split_fixed_aux n n EmptyString s.

(** A stand-in for the embedding model: the length of the text in the first
    coordinate, zero elsewhere. *)
Definition toy_embedding (text : string) : vec :=
  (Z.of_nat (String.length text) # 1)%Q :: repeat 0%Q (dimension - 1).

(** An embedding backend whose call number [fail_at] (counting all backend
    calls made so far) is refused. *)
Definition embeddings_failing_at (fail_at : nat)
    (log : list Event) (text : string) : Reply vec :=
  if (length log =? fail_at)%nat then TransportFailure "connection refused"
  else HttpReply None (Some (toy_embedding text)).

Definition embeddings_ok (log : list Event) (text : string) : Reply vec :=
  HttpReply None (Some (toy_embedding text)).
Definition generate_ok (answer : string) (log : list Event) (prompt : string)
    : Reply string := HttpReply None (Some answer).
Definition generate_down (log : list Event) (prompt : string) : Reply string :=
  TransportFailure "connection refused".

Definition env_with (embed : list Event -> string -> Reply vec)
    (gen : list Event -> string -> Reply string) : Env :=
  {| split_text := split_fixed 4; md5_hexdigest := fun q => q;
     embeddings_api := embed; generate_api := gen |}.

(** Both backends answer. *)
Definition env_healthy : Env := env_with embeddings_ok (generate_ok " It is 42. ").
(** The second embedding call is refused. *)
Definition env_embed_flaky : Env :=
  env_with (embeddings_failing_at 1) (generate_ok "ok").
(** The generation backend pads its answer with no-break spaces. *)
Definition env_padded_reply : Env :=
  env_with embeddings_ok (generate_ok (NBSP +:+ " It is 42." +:+ NL +:+ NBSP)).
(** Embedding answers; generation is down. *)
Definition env_generate_down : Env := env_with embeddings_ok generate_down.
(** The embedding backend answers with two numbers instead of 768. *)
Definition env_short_vectors : Env :=
  env_with (fun _ _ => HttpReply None (Some [1%Q; 2%Q])) (generate_ok "ok").

Definition redis_empty : Redis := {| reachable := true; store := ∅ |}.

(** A freshly started service: what [_initialize_index] builds. *)
Definition rag_fresh : RAGService :=
  {| index := {| d := dimension; xb := [] |}; documents := [] |}.
Definition world_fresh : World :=
  {| rag := rag_fresh; redis_client := Some redis_empty; clock := 0; calls := [] |}.

(** The service after the upload of one document of two chunks. *)
Definition rag_one_doc : RAGService :=
  {| index := {| d := dimension; xb := [toy_embedding "aaaa"; toy_embedding "bb"] |};
     documents := chunk_records 7 "a.txt" 0 ["aaaa"; "bb"] |}.
Definition world_one_doc : World :=
  {| rag := rag_one_doc; redis_client := Some redis_empty; clock := 0; calls := [] |}.

(** The service after the same one-chunk text was uploaded twice. *)
Definition rag_twice : RAGService :=
  {| index := {| d := dimension; xb := [toy_embedding "aaaa"; toy_embedding "aaaa"] |};
     documents := chunk_records 7 "a.txt" 0 ["aaaa"] ++ chunk_records 8 "a.txt" 0 ["aaaa"] |}.
Definition world_twice : World :=
  {| rag := rag_twice; redis_client := Some redis_empty; clock := 0; calls := [] |}.

(** The service after two uploads: document 7 with one chunk, document 8
    with two. *)
Definition rag_two_docs : RAGService :=
  {| index := {| d := dimension;
                 xb := [toy_embedding "aaa"; toy_embedding "bbbb"; toy_embedding "cc"] |};
     documents := chunk_records 7 "a.txt" 0 ["aaa"] ++
                  chunk_records 8 "b.txt" 0 ["bbbb"; "cc"] |}.
Definition world_two_docs : World :=
  {| rag := rag_two_docs; redis_client := Some redis_empty; clock := 0; calls := [] |}.

(** A misaligned service: two vectors, one record. *)
Definition rag_more_rows : RAGService :=
  {| index := {| d := dimension; xb := [toy_embedding "aaaa"; toy_embedding "bb"] |};
     documents := chunk_records 7 "a.txt" 0 ["aaaa"] |}.
Definition world_more_rows : World :=
  {| rag := rag_more_rows; redis_client := None; clock := 0; calls := [] |}.

(** A vector far from every embedding of the examples: the square of its
    first coordinate does not fit a [float32]. *)
Definition far_embedding : vec := (10 ^ 20 # 1)%Q :: repeat 0%Q (dimension - 1).
(** The embedding backend answers with that vector. *)
Definition env_far : Env :=
  env_with (fun _ _ => HttpReply None (Some far_embedding)) (generate_ok "ok").

(** A misaligned service: two vectors, no record. *)
Definition rag_rows_only : RAGService :=
  {| index := {| d := dimension; xb := [toy_embedding "aaaa"; toy_embedding "bb"] |};
     documents := [] |}.
Definition world_rows_only : World :=
  {| rag := rag_rows_only; redis_client := None; clock := 0; calls := [] |}.

(** An embedding backend that answers with an HTTP error. *)
Definition env_embed_http_error : Env :=
  env_with (fun _ _ => HttpReply (Some "500 Server Error") None) (generate_ok "ok").
(** An embedding backend whose successful reply has no field [embedding]. *)
Definition env_embed_no_field : Env :=
  env_with (fun _ _ => HttpReply None None) (generate_ok "ok").


(** An empty index next to a cache that still holds an answer. *)
Definition redis_stale : Redis :=
  {| reachable := true;
     store := {[ "chat:what?" := ({| response := "It is 42."; sources := [] |}, 3600) ]} |}.
Definition world_empty_index_stale_cache : World :=
  {| rag := rag_fresh; redis_client := Some redis_stale; clock := 100; calls := [] |}.

(** Every stored document has an id below the next one to hand out. *)
Definition fresh_ids (a : App) : Prop :=
  Forall (fun row => doc_id row < next_document_id a) (documents_table a).

(** Parsers for the examples: every page of a PDF is the text "page", and
    only UTF-8 decoding succeeds, as the identity. *)
Definition parsers_demo : Parsers :=
  {| pdf_pages := fun _ => inr ["page"; EmptyString; "page"];
     decode := fun encoding content =>
       if String.eqb encoding "utf-8" then Some content else None |}.

(** [bytes.decode('latin-1')]: every byte is the character of that
    number. *)
Definition latin1_char (c : Ascii.ascii) : string :=
  let n := Ascii.nat_of_ascii c in
  if (n <? 128)%nat then String c EmptyString
  else String (Ascii.ascii_of_nat (192 + n / 64))
         (String (Ascii.ascii_of_nat (128 + n mod 64)) EmptyString).

Fixpoint decode_latin1 (content : string) : string :=
  match content with
  | EmptyString => EmptyString
  | String c rest => latin1_char c +:+ decode_latin1 rest
  end.

(** Parsers that read a text file as UTF-8 (taken as it is) and, failing
    that, as Latin-1. *)
Definition parsers_latin1 : Parsers :=
  {| pdf_pages := fun _ => inr [];
     decode := fun encoding content =>
       if String.eqb encoding "utf-8" then Some content
       else if String.eqb encoding "latin-1" then Some (decode_latin1 content)
       else None |}.

Definition app_fresh : App :=
  {| world := world_fresh; documents_table := []; next_document_id := 1;
     chat_history_table := [] |}.

(** The letter e with an acute accent (U+00E9), in UTF-8. *)
Definition E_ACUTE : string :=
  String (Ascii.ascii_of_nat 195) (String (Ascii.ascii_of_nat 169) EmptyString).

(** A text of thirty accented letters: sixty bytes. *)
Definition thirty_accents : string := str_concat (replicate 30 E_ACUTE).

(** A text of sixty characters. *)
Definition sixty : string :=
  "aaaaaaaaaabbbbbbbbbbccccccccccddddddddddeeeeeeeeeeffffffffff".

Definition file_notes : UploadFile :=
  {| upload_filename := "Notes.TXT"; upload_size := 60; upload_bytes := sixty |}.


(** Time passes for the application. *)
Definition app_at_time (a : App) (t : Z) : App :=
  {| world := at_time (world a) t; documents_table := documents_table a;
     next_document_id := next_document_id a;
     chat_history_table := chat_history_table a |}.

(** The application after one document was uploaded and indexed. *)
Definition app_one_doc : App :=
  {| world := world_one_doc;
     documents_table :=
       [{| doc_id := 7; doc_filename := "a.txt"; doc_content := "aaaabb";
           doc_user_id := 1; doc_embedding_id := Some "doc_7_2_chunks" |}];
     next_document_id := 8; chat_history_table := [] |}.


(** * Properties *)

Ltac unfold_m :=
  unfold bind, ret, raise, lift, get_world, set_rag, set_redis, log_call,
    try_except in *.

Section RagFacts.
Context (E : Env).

Lemma _get_embedding_frame text w w' r :
  _get_embedding E text w = (w', r) ->
  rag w' = rag w /\ redis_client w' = redis_client w /\ clock w' = clock w /\
  calls w' = calls w ++ [PostEmbeddings text].
Proof.
  unfold _get_embedding. unfold_m. simpl.
  destruct (embeddings_api E (calls w) text) as [msg|[err|] [v|]];
    intros [= <- <-]; auto.
Qed.

Lemma chunk_records_length document_id filename i chunks :
  length (chunk_records document_id filename i chunks) = length chunks.
Proof. revert i. induction chunks; intros; simpl; auto. Qed.

Lemma embed_chunks_run chunks : forall document_id filename i embs w w' r,
  embed_chunks E document_id filename i chunks embs w = (w', r) ->
  index (rag w') = index (rag w) /\ redis_client w' = redis_client w /\
  clock w' = clock w /\
  exists j,
    documents (rag w') =
      documents (rag w) ++ chunk_records document_id filename i (take j chunks) /\
    match r with
    | inr embs' => j = length chunks /\
                   length embs' = (length embs + length chunks)%nat
    | inl _ => (j < length chunks)%nat
    end.
Proof.
  induction chunks as [|chunk rest IH]; intros document_id filename i embs w w' r.
  - simpl. unfold_m. intros [= <- <-]. repeat split; auto.
    exists 0%nat. simpl. rewrite app_nil_r. split; [done|]. split; [done|lia].
  - simpl. unfold bind at 1.
    destruct (_get_embedding E chunk w) as [w1 [e|v]] eqn:Hemb;
      apply _get_embedding_frame in Hemb as (Hrag & Hredis & Hclock & _).
    + intros [= <- <-]. rewrite Hrag. repeat split; auto.
      exists 0%nat. simpl. rewrite app_nil_r. split; [done|lia].
    + unfold bind at 1. unfold documents_append. unfold_m. simpl.
      intros Hrest. apply IH in Hrest as (Hix & Hr & Hc & j & Hdocs & Hres).
      simpl in *. rewrite Hrag in *. repeat split; auto; try congruence.
      exists (S j). simpl. rewrite Hdocs, <- app_assoc. split; [done|].
      destruct r as [e|embs']; [lia|].
      destruct Hres as [-> Hlen]. split; [done|].
      rewrite Hlen, length_app. simpl. lia.
Qed.

(** A successful call appends the records of all chunks and as many
    vectors. *)
Lemma index_document_ok document_id filename content w w' ref :
  index_document E document_id filename content w = (w', inr ref) ->
  documents (rag w') =
    documents (rag w) ++ chunk_records document_id filename 0 (split_text E content) /\
  exists embs, length embs = length (split_text E content) /\
    xb (index (rag w')) = xb (index (rag w)) ++ embs /\
    d (index (rag w')) = d (index (rag w)).
Proof.
  unfold index_document. unfold bind at 1.
  destruct (embed_chunks E document_id filename 0 (split_text E content) [] w)
    as [w1 [e|embs]] eqn:Hloop; [done|].
  apply embed_chunks_run in Hloop as (Hix & _ & _ & j & Hdocs & -> & Hlen).
  rewrite firstn_all in Hdocs. simpl in Hlen.
  unfold index_add, _save_index. unfold_m.
  destruct (faiss_add (index (rag w1)) embs) as [e|ix] eqn:Hadd; [done|].
  simpl. intros [= <- _]. simpl. split; [done|].
  exists embs. unfold faiss_add in Hadd. destruct embs as [|v0 embs0]; [done|].
  destruct (forallb _ _); [|done]. destruct (_ =? _)%nat; [|done].
  injection Hadd as <-. simpl. rewrite Hix. auto.
Qed.

(** A failed call leaves the vector index alone, but keeps the records of
    the chunks embedded before the failure. *)
Lemma index_document_err document_id filename content w w' e :
  index_document E document_id filename content w = (w', inl e) ->
  index (rag w') = index (rag w) /\
  exists j,
    documents (rag w') =
      documents (rag w) ++
      chunk_records document_id filename 0 (take j (split_text E content)).
Proof.
  unfold index_document. unfold bind at 1.
  destruct (embed_chunks E document_id filename 0 (split_text E content) [] w)
    as [w1 [e1|embs]] eqn:Hloop;
    apply embed_chunks_run in Hloop as (Hix & _ & _ & j & Hdocs & Hres).
  - intros [= <- _]. eauto.
  - unfold index_add, _save_index. unfold_m.
    destruct (faiss_add (index (rag w1)) embs) as [e1|ix] eqn:Hadd; [|done].
    intros [= <- _]. eauto.
Qed.

Lemma index_documents_grow docs : forall w w' refs,
  index_documents E docs w = (w', inr refs) ->
  exists n, ntotal (index (rag w')) = (ntotal (index (rag w)) + n)%nat /\
            length (documents (rag w')) = (length (documents (rag w)) + n)%nat.
Proof.
  induction docs as [|[[document_id filename] content] rest IH]; intros w w' refs.
  - simpl. unfold_m. intros [= <- _]. exists 0%nat. lia.
  - simpl. unfold bind at 1.
    destruct (index_document E document_id filename content w)
      as [w1 [e|ref]] eqn:Hone; [done|].
    apply index_document_ok in Hone as (Hdocs & embs & Hlen & Hxb & _).
    unfold bind at 1.
    destruct (index_documents E rest w1) as [w2 [e|ids]] eqn:Hrest; [done|].
    unfold ret. intros [= <- _].
    apply IH in Hrest as (n & Hn1 & Hn2).
    exists (length (split_text E content) + n)%nat.
    unfold ntotal in *. rewrite Hn1, Hn2, Hxb, Hdocs, !length_app, Hlen,
      chunk_records_length. lia.
Qed.

End RagFacts.

(** The state built by [_initialize_index] is the empty one, and it is
    aligned. *)
Lemma initialize_index_aligned w :
  rag (_initialize_index w).1 = rag_fresh /\ aligned (rag (_initialize_index w).1).
Proof. split; reflexivity. Qed.

(** C3: after any sequence of successful [index_document] calls that starts
    from an aligned state (the empty one, or a consistently loaded one), the
    vector index holds exactly as many vectors as the chunk store holds
    records; the calls appended the same number [n] to both. *)
Theorem index_size_equals_chunk_count E docs w w' refs :
  aligned (rag w) ->
  index_documents E docs w = (w', inr refs) ->
  aligned (rag w') /\
  exists n, ntotal (index (rag w')) = (ntotal (index (rag w)) + n)%nat /\
            length (documents (rag w')) = (length (documents (rag w)) + n)%nat.
Proof.
  unfold aligned. intros Hal Hrun.
  destruct (index_documents_grow E docs w w' refs Hrun) as (n & Hn1 & Hn2).
  split; [lia|]. exists n. auto.
Qed.

Lemma index_size_equals_chunk_count_witness :
  exists w' refs,
    index_documents env_healthy
      [(7, "a.txt", "aaaabbbb"); (8, "b.txt", "cccc")] world_fresh = (w', inr refs) /\
    aligned (rag w').
Proof.
  eexists _, _. split; [vm_compute; reflexivity|].
  eapply (index_size_equals_chunk_count env_healthy
            [(7, "a.txt", "aaaabbbb"); (8, "b.txt", "cccc")] world_fresh);
    vm_compute; reflexivity.
Defined.

(** C1 (defect of the code): [index_document] is not all-or-nothing. The
    upload below has two chunks and the backend refuses the second embedding
    call: the call fails, the vector index is untouched, but the chunk store
    has kept the record of the first chunk, so the two are misaligned. *)
Theorem index_document_partial_failure_misaligns :
  exists w',
    index_document env_embed_flaky 7 "a.txt" "aaaabb" world_fresh
      = (w', inl (ConnectionError "connection refused")) /\
    index (rag w') = index (rag world_fresh) /\
    documents (rag w') = chunk_records 7 "a.txt" 0 ["aaaa"] /\
    ~ aligned (rag w').
Proof.
  eexists. split; [vm_compute; reflexivity|].
  split; [reflexivity|]. split; [reflexivity|].
  unfold aligned. vm_compute. discriminate.
Qed.

(** The defect for every splitter, document and state: as soon as the text
    has a second chunk and the backend answers the first embedding call and
    refuses the second, the call fails and the chunk store has grown by the
    record of the first chunk while the index has not changed. *)
Lemma index_document_second_chunk_failure E document_id filename content w
    chunk0 chunk1 rest v msg :
  split_text E content = chunk0 :: chunk1 :: rest ->
  embeddings_api E (calls w) chunk0 = HttpReply None (Some v) ->
  embeddings_api E (calls w ++ [PostEmbeddings chunk0]) chunk1
    = TransportFailure msg ->
  exists w',
    index_document E document_id filename content w
      = (w', inl (ConnectionError msg)) /\
    index (rag w') = index (rag w) /\
    documents (rag w') =
      documents (rag w) ++ chunk_records document_id filename 0 [chunk0].
Proof.
  intros Hsplit H0 H1. unfold index_document. rewrite Hsplit. simpl.
  unfold _get_embedding, documents_append. unfold_m. simpl.
  rewrite H0. simpl. rewrite H1. simpl. eauto.
Qed.

(** The same defect when the backend answers with vectors of the wrong
    dimension: the failure comes from [index.add], after every record was
    appended. *)
Lemma index_document_wrong_dimension_misaligns :
  exists w',
    index_document env_short_vectors 7 "a.txt" "aaaabb" world_fresh
      = (w', inl AssertionError) /\
    index (rag w') = index (rag world_fresh) /\
    documents (rag w') = chunk_records 7 "a.txt" 0 ["aaaa"; "bb"].
Proof. eexists. split; [vm_compute; reflexivity|]. split; reflexivity. Qed.

(** What the misalignment costs: when the failed upload is retried and
    succeeds, row 1 of the index holds the vector of ["bb"], but the record
    at position 1 of the chunk store is the one of ["aaaa"]; a search that
    lands on row 1 returns the wrong text. *)
Lemma retry_after_failure_returns_wrong_chunk :
  let w1 := (index_document env_embed_flaky 7 "a.txt" "aaaabb" world_fresh).1 in
  let w2 := (index_document env_healthy 7 "a.txt" "aaaabb" w1).1 in
  xb (index (rag w2)) = [toy_embedding "aaaa"; toy_embedding "bb"] /\
  (search_similar env_healthy "xx" (Some 1) w2).2
    = inr [({| document_id := 7; filename := "a.txt";
               chunk_index := 0; content := "aaaa" |}, 1%Q)].
Proof. split; vm_compute; reflexivity. Qed.

(** C4 (counterexample): the backend answers with a vector of two numbers
    while the configured dimension is 768, and [_get_embedding] returns that
    vector instead of failing. *)
Lemma embedding_returns_short_vector :
  (_get_embedding env_short_vectors "hello" world_fresh).2 = inr [1%Q; 2%Q] /\
  length [1%Q; 2%Q] <> dimension.
Proof. split; [reflexivity|]. vm_compute. discriminate. Qed.

(** C4 (amended): [_get_embedding] fails, with the error of the transport,
    when the request cannot be sent, with the HTTP error when the reply is
    not a success, and with [KeyError('embedding')] when a successful reply
    has no field [embedding]; the vector of a successful reply is returned
    as it is, whatever its dimension. In every case the service state is
    untouched, and exactly one request, for the text, has been sent. *)
Theorem embedding_outcomes E text w :
  (forall msg, embeddings_api E (calls w) text = TransportFailure msg ->
     (_get_embedding E text w).2 = inl (ConnectionError msg)) /\
  (forall err body, embeddings_api E (calls w) text = HttpReply (Some err) body ->
     (_get_embedding E text w).2 = inl (HTTPError err)) /\
  (embeddings_api E (calls w) text = HttpReply None None ->
     (_get_embedding E text w).2 = inl (KeyError "embedding")) /\
  (forall v, embeddings_api E (calls w) text = HttpReply None (Some v) ->
     (_get_embedding E text w).2 = inr v) /\
  rag (_get_embedding E text w).1 = rag w /\
  redis_client (_get_embedding E text w).1 = redis_client w /\
  clock (_get_embedding E text w).1 = clock w /\
  calls (_get_embedding E text w).1 = calls w ++ [PostEmbeddings text].
Proof.
  unfold _get_embedding. unfold_m. simpl.
  repeat split; try (intros; rewrite H; reflexivity);
    destruct (embeddings_api E (calls w) text) as [msg|[err|] [v|]]; reflexivity.
Qed.

Lemma embedding_outcomes_witness :
  (_get_embedding env_embed_flaky "bb"
     (_get_embedding env_embed_flaky "aaaa" world_fresh).1).2
    = inl (ConnectionError "connection refused") /\
  (_get_embedding env_embed_http_error "hello" world_fresh).2
    = inl (HTTPError "500 Server Error") /\
  (_get_embedding env_embed_no_field "hello" world_fresh).2
    = inl (KeyError "embedding") /\
  (_get_embedding env_short_vectors "hello" world_fresh).2 = inr [1%Q; 2%Q].
Proof.
  split; [|split; [|split]].
  - apply (proj1 (embedding_outcomes env_embed_flaky "bb"
                    (_get_embedding env_embed_flaky "aaaa" world_fresh).1)).
    reflexivity.
  - apply (proj1 (proj2 (embedding_outcomes env_embed_http_error
                           "hello" world_fresh)) _ None).
    reflexivity.
  - apply (proj1 (proj2 (proj2 (embedding_outcomes env_embed_no_field
                                  "hello" world_fresh)))).
    reflexivity.
  - apply (proj1 (proj2 (proj2 (proj2 (embedding_outcomes env_short_vectors
                                         "hello" world_fresh))))).
    reflexivity.
Defined.

(** ** Similarity and the index search *)

Lemma square_nonneg (a : Q) : (0 <= a * a)%Q.
Proof. unfold Qle, Qmult; simpl. nia. Qed.

Lemma one_plus_pos (x : Q) : (0 <= x)%Q -> (0 < 1 + x)%Q.
Proof.
  intros H. apply Qlt_le_trans with 1%Q; [reflexivity|].
  rewrite <- (Qplus_0_r 1) at 1. apply Qplus_le_r. exact H.
Qed.

Lemma similarity_pos (x : Q) : (0 <= x)%Q -> (0 < similarity x)%Q.
Proof.
  intros H. unfold similarity, Qdiv. rewrite Qmult_1_l.
  apply Qinv_lt_0_compat, one_plus_pos, H.
Qed.

Lemma similarity_le_1 (x : Q) : (0 <= x)%Q -> (similarity x <= 1)%Q.
Proof.
  intros H. unfold similarity. apply Qle_shift_div_r; [by apply one_plus_pos|].
  rewrite Qmult_1_l. rewrite <- (Qplus_0_r 1) at 1. apply Qplus_le_r. exact H.
Qed.

Lemma similarity_strict (x y : Q) :
  (0 <= x)%Q -> (x < y)%Q -> (similarity y < similarity x)%Q.
Proof.
  intros Hx Hxy. unfold similarity, Qdiv. rewrite !Qmult_1_l.
  assert (H1 : (0 < 1 + x)%Q) by by apply one_plus_pos.
  assert (H2 : (0 < 1 + y)%Q).
  { apply one_plus_pos, Qlt_le_weak. by apply Qle_lt_trans with x. }
  apply (proj1 (Qinv_lt_contravar (1 + x) (1 + y) H1 H2)).
  by apply Qplus_lt_r.
Qed.

Lemma similarity_antitone (x y : Q) :
  (0 <= x)%Q -> (x <= y)%Q -> (similarity y <= similarity x)%Q.
Proof.
  intros Hx Hxy. apply Qle_lteq in Hxy as [Hlt|Heq].
  - apply Qlt_le_weak. by apply similarity_strict.
  - unfold similarity. rewrite Heq. apply Qle_refl.
Qed.

Lemma l2sqr_nonneg (x y : vec) : (0 <= l2sqr x y)%Q.
Proof.
  unfold l2sqr. revert y. induction x as [|a x IH]; intros [|b y]; simpl;
    try apply Qle_refl.
  apply (Qplus_le_compat 0 _ 0 _); [apply square_nonneg|apply IH].
Qed.

#[local] Instance dist_le_trans : Transitive dist_le.
Proof. intros a b c. unfold dist_le. apply Qle_trans. Qed.

#[local] Instance dist_le_total : Total dist_le.
Proof.
  intros a b. unfold dist_le.
  destruct (Qlt_le_dec a.1 b.1); [left; by apply Qlt_le_weak | by right].
Qed.

Lemma ranked_sorted ix q : StronglySorted dist_le (ranked ix q).
Proof. apply StronglySorted_merge_sort; apply _. Qed.

Lemma ranked_length ix q : length (ranked ix q) = ntotal ix.
Proof.
  unfold ranked, ntotal.
  rewrite (Permutation_length (merge_sort_Permutation _ _)).
  apply length_imap.
Qed.

Lemma ranked_elem ix q dist idx :
  (dist, idx) ∈ ranked ix q ->
  exists i x, xb ix !! i = Some x /\ idx = Z.of_nat i /\ dist = l2sqr q x.
Proof.
  unfold ranked. rewrite merge_sort_Permutation.
  intros (i & x & [= -> ->] & Hx)%elem_of_lookup_imap. eauto.
Qed.

Lemma StronglySorted_take {A} (R : relation A) k (l : list A) :
  StronglySorted R l -> StronglySorted R (take k l).
Proof.
  intros H. rewrite <- (take_drop k l) in H.
  by apply StronglySorted_app_1_l in H.
Qed.

Lemma StronglySorted_filter {A} (R : relation A) (P : A -> Prop)
    `{!forall x, Decision (P x)} (l : list A) :
  StronglySorted R l -> StronglySorted R (filter P l).
Proof.
  induction 1 as [|a l Hs IH Hhd]; [constructor|].
  rewrite filter_cons. destruct (decide (P a)); [|done].
  constructor; [done|]. apply Forall_forall.
  intros x [_ Hx]%list_elem_of_filter.
  rewrite Forall_forall in Hhd. by apply Hhd.
Qed.

Lemma StronglySorted_replicate {A} (R : relation A) n (x : A) :
  R x x -> StronglySorted R (replicate n x).
Proof.
  intros Hx. induction n as [|n IH]; simpl; constructor; [done|].
  by apply Forall_replicate.
Qed.

Lemma FLT_MAX_nonneg : (0 <= FLT_MAX)%Q.
Proof. by vm_compute. Qed.

Lemma found_sorted ix q : StronglySorted dist_le (found ix q).
Proof. apply StronglySorted_filter, ranked_sorted. Qed.

Lemma found_length ix q : (length (found ix q) <= ntotal ix)%nat.
Proof. unfold found. rewrite <- (ranked_length ix q). apply length_filter. Qed.

Lemma found_elem ix q h :
  h ∈ found ix q ->
  (h.1 < FLT_MAX)%Q /\
  exists i x, xb ix !! i = Some x /\ h.2 = Z.of_nat i /\ h.1 = l2sqr q x.
Proof.
  intros [Hb Hin]%list_elem_of_filter. split; [done|].
  destruct h as [dist idx].
  apply ranked_elem in Hin as (i & x & ? & ? & ?). eauto.
Qed.

(** What a successful index search returns. *)
Lemma faiss_search_ok ix q k hits :
  faiss_search ix q k = inr hits ->
  0 < k /\ hits = resize (Z.to_nat k) no_result (found ix q) /\
  length hits = Z.to_nat k /\
  StronglySorted dist_le hits /\
  Forall (hit_of ix q) hits.
Proof.
  unfold faiss_search. destruct (negb _); [done|].
  destruct (0 <? k) eqn:Hk; [|done]. simpl. intros [= <-].
  split; [lia|]. split; [done|]. split; [apply length_resize|].
  rewrite resize_spec. split.
  - apply StronglySorted_app_2.
    + intros x1 x2 Hx1 [-> _]%elem_of_replicate.
      apply (subseteq_take (Z.to_nat k)), found_elem in Hx1 as [Hlt _].
      unfold dist_le. simpl. by apply Qlt_le_weak.
    + apply StronglySorted_take, found_sorted.
    + apply StronglySorted_replicate. unfold dist_le. apply Qle_refl.
  - apply Forall_app. split.
    + apply Forall_forall. intros h Hin. right.
      by apply (subseteq_take (Z.to_nat k)), found_elem in Hin.
    + apply Forall_replicate. by left.
Qed.

Lemma hit_of_bounds ix q h :
  hit_of ix q h -> -1 <= h.2 < Z.of_nat (ntotal ix) /\ (0 <= h.1)%Q.
Proof.
  intros [->|(_ & i & x & Hx & -> & ->)].
  - simpl. split; [lia|apply FLT_MAX_nonneg].
  - apply lookup_lt_Some in Hx. unfold ntotal.
    split; [lia|apply l2sqr_nonneg].
Qed.

Lemma hit_of_row ix q h :
  hit_of ix q h -> 0 <= h.2 ->
  (h.1 < FLT_MAX)%Q /\
  exists x, xb ix !! Z.to_nat h.2 = Some x /\ h.1 = l2sqr q x.
Proof.
  intros [->|(Hlt & i & x & Hx & Hi & Hd)] Hnn; [simpl in Hnn; lia|].
  split; [done|]. exists x. by rewrite Hi, Nat2Z.id.
Qed.

Lemma hit_of_slot ix q h : hit_of ix q h -> h.2 < 0 -> h = no_result.
Proof. intros [->|(_ & i & x & _ & Hi & _)] Hneg; [done|lia]. Qed.

Lemma faiss_search_labels ix q k hits :
  faiss_search ix q k = inr hits ->
  Forall (fun h : Q * Z => -1 <= h.2 < Z.of_nat (ntotal ix)) hits.
Proof.
  intros (_ & _ & _ & _ & Hall)%faiss_search_ok.
  eapply Forall_impl; [exact Hall|]. intros h Hh.
  by apply hit_of_bounds in Hh as [? _].
Qed.

Lemma faiss_search_distances ix q k hits :
  faiss_search ix q k = inr hits ->
  Forall (fun h : Q * Z => (0 <= h.1)%Q) hits.
Proof.
  intros (_ & _ & _ & _ & Hall)%faiss_search_ok.
  eapply Forall_impl; [exact Hall|]. intros h Hh.
  by apply hit_of_bounds in Hh as [_ ?].
Qed.

Lemma py_getitem_in_range {A} (l : list A) (i : Z) :
  0 <= i < Z.of_nat (length l) ->
  exists x, l !! Z.to_nat i = Some x /\ py_getitem l i = inr x.
Proof.
  intros Hi. unfold py_getitem.
  destruct (lookup_lt_is_Some_2 l (Z.to_nat i)) as [x Hx]; [lia|].
  exists x. split; [done|].
  replace (i <? 0) with false by lia.
  replace ((0 <=? i) && (i <? Z.of_nat (length l))) with true by lia.
  by rewrite Hx.
Qed.

(** [l[-1]] is the last element of a list that has one. *)
Lemma py_getitem_last {A} (l : list A) :
  l <> [] -> exists x, last l = Some x /\ py_getitem l (-1) = inr x.
Proof.
  intros Hne. assert (Hlen : (0 < length l)%nat).
  { destruct l; [done|simpl; lia]. }
  unfold py_getitem. rewrite last_lookup.
  destruct (lookup_lt_is_Some_2 l (Nat.pred (length l))) as [x Hx]; [lia|].
  exists x. split; [done|].
  replace (-1 <? 0) with true by lia.
  replace ((0 <=? -1 + Z.of_nat (length l)) &&
           (-1 + Z.of_nat (length l) <? Z.of_nat (length l))) with true by lia.
  replace (Z.to_nat (-1 + Z.of_nat (length l))) with (Nat.pred (length l)) by lia.
  by rewrite Hx.
Qed.

Lemma py_getitem_empty {A} (i : Z) : py_getitem (@nil A) i = inl IndexError.
Proof.
  unfold py_getitem. simpl.
  destruct (i <? 0); destruct (_ && _) eqn:Hr; try done;
    apply andb_prop in Hr as [H1 H2]; lia.
Qed.

(** Whatever the loop returns is what [kept] keeps, in the order of the
    hits. *)
Lemma collect_results_inr docs hits : forall acc results,
  collect_results docs hits acc = inr results ->
  results = acc ++ omap (kept docs) hits.
Proof.
  induction hits as [|[dist idx] rest IH]; intros acc results; simpl.
  - intros [= <-]. by rewrite app_nil_r.
  - unfold kept at 1. simpl.
    destruct (idx <? Z.of_nat (length docs)); [|by apply IH].
    destruct (py_getitem docs idx) as [e|chunk]; [done|].
    intros ->%IH. by rewrite <- app_assoc.
Qed.

(** Every hit that passes the guard of the loop gives one result, with the
    similarity of the hit. *)
Lemma collect_results_scores docs hits : forall acc results,
  collect_results docs hits acc = inr results ->
  map snd results =
    map snd acc ++
    map (fun h : Q * Z => similarity h.1)
        (filter (fun h : Q * Z => h.2 < Z.of_nat (length docs)) hits).
Proof.
  induction hits as [|[dist idx] rest IH]; intros acc results; simpl.
  - intros [= <-]. by rewrite app_nil_r.
  - rewrite filter_cons. simpl.
    destruct (decide (idx < Z.of_nat (length docs))) as [Hlt|Hge].
    + replace (idx <? Z.of_nat (length docs)) with true by lia.
      destruct (py_getitem docs idx) as [e|chunk]; [done|].
      intros ->%IH. rewrite map_app. simpl. by rewrite <- app_assoc.
    + replace (idx <? Z.of_nat (length docs)) with false by lia. apply IH.
Qed.

(** Given labels that are not negative, the loop never raises. *)
Lemma collect_results_spec docs hits : forall acc,
  Forall (fun h : Q * Z => 0 <= h.2) hits ->
  collect_results docs hits acc = inr (acc ++ omap (kept docs) hits).
Proof.
  induction hits as [|[dist idx] rest IH]; intros acc Hnn; simpl.
  - by rewrite app_nil_r.
  - apply Forall_cons in Hnn as [Hidx Hrest]. simpl in Hidx.
    unfold kept at 1. simpl.
    destruct (idx <? Z.of_nat (length docs)) eqn:Hlt.
    + destruct (py_getitem_in_range docs idx) as (x & Hx & ->); [lia|].
      rewrite IH by done. by rewrite <- app_assoc.
    + by apply IH.
Qed.

(** On a store that is not empty the loop never raises either, whatever
    slots the search has left unfilled. *)
Lemma collect_results_nonempty docs hits : forall acc,
  docs <> [] ->
  Forall (fun h : Q * Z => -1 <= h.2) hits ->
  collect_results docs hits acc = inr (acc ++ omap (kept docs) hits).
Proof.
  induction hits as [|[dist idx] rest IH]; intros acc Hne Hlab; simpl.
  - by rewrite app_nil_r.
  - apply Forall_cons in Hlab as [Hidx Hrest]. simpl in Hidx.
    unfold kept at 1. simpl.
    destruct (idx <? Z.of_nat (length docs)) eqn:Hlt; [|by apply IH].
    destruct (decide (idx = -1)) as [->|Hn].
    + destruct (py_getitem_last docs Hne) as (x & _ & ->).
      rewrite IH by done. by rewrite <- app_assoc.
    + destruct (py_getitem_in_range docs idx) as (x & Hx & ->); [lia|].
      rewrite IH by done. by rewrite <- app_assoc.
Qed.

Section SearchFacts.
Context (E : Env).

(** [search_similar], step by step. *)
Lemma search_similar_run query top_k w :
  search_similar E query top_k w =
  if (ntotal (index (rag w)) =? 0)%nat then (w, inr [])
  else
    match _get_embedding E query w with
    | (w1, inl e) => (w1, inl e)
    | (w1, inr v) =>
        (w1, match faiss_search (index (rag w)) v
                     (Z.min (default TOP_K_RESULTS top_k)
                            (Z.of_nat (ntotal (index (rag w))))) with
             | inl e => inl e
             | inr hits => collect_results (documents (rag w)) hits []
             end)
    end.
Proof.
  unfold search_similar. unfold bind at 1. unfold get_world at 1.
  destruct (_ =? _)%nat; [done|].
  unfold bind at 1. destruct (_get_embedding E query w) as [w1 [e|v]]; [done|].
  unfold_m.
  by destruct (faiss_search _ _ _) as [e|hits].
Qed.

(** What lies behind a result of [search_similar] when the index is not
    empty: the query embedding and the hits of the index search. *)
Lemma search_similar_inr query top_k w w' results :
  search_similar E query top_k w = (w', inr results) ->
  ntotal (index (rag w)) <> 0%nat ->
  exists v hits,
    _get_embedding E query w = (w', inr v) /\
    faiss_search (index (rag w)) v
      (Z.min (default TOP_K_RESULTS top_k)
             (Z.of_nat (ntotal (index (rag w))))) = inr hits /\
    results = omap (kept (documents (rag w))) hits.
Proof.
  rewrite search_similar_run. intros Hrun Hn.
  destruct (_ =? _)%nat eqn:Hz; [by apply Nat.eqb_eq in Hz|].
  destruct (_get_embedding E query w) as [w1 [e|v]]; [done|].
  destruct (faiss_search _ _ _) as [e|hits] eqn:Hs; [done|].
  injection Hrun as <- Hc. apply collect_results_inr in Hc. simpl in Hc.
  by exists v, hits.
Qed.

Lemma search_similar_scores query top_k w w' results v hits :
  search_similar E query top_k w = (w', inr results) ->
  ntotal (index (rag w)) <> 0%nat ->
  _get_embedding E query w = (w', inr v) ->
  faiss_search (index (rag w)) v
    (Z.min (default TOP_K_RESULTS top_k)
           (Z.of_nat (ntotal (index (rag w))))) = inr hits ->
  map snd results =
    map (fun h : Q * Z => similarity h.1)
        (filter (fun h : Q * Z => h.2 < Z.of_nat (length (documents (rag w))))
                hits).
Proof.
  rewrite search_similar_run. intros Hrun Hn Hemb Hs.
  destruct (_ =? _)%nat eqn:Hz; [by apply Nat.eqb_eq in Hz|].
  rewrite Hemb, Hs in Hrun. injection Hrun as Hc.
  by apply collect_results_scores in Hc.
Qed.

Lemma search_similar_frame query top_k w w' r :
  search_similar E query top_k w = (w', r) ->
  rag w' = rag w /\ redis_client w' = redis_client w /\ clock w' = clock w.
Proof.
  rewrite search_similar_run. destruct (_ =? _)%nat.
  - intros [= <- _]. auto.
  - destruct (_get_embedding E query w) as [w1 [e|v]] eqn:Hemb;
      apply _get_embedding_frame in Hemb as (? & ? & ? & _);
      intros [= <- _]; auto.
Qed.

End SearchFacts.

Lemma kept_Some docs (h : Q * Z) r :
  kept docs h = Some r ->
  h.2 < Z.of_nat (length docs) /\ py_getitem docs h.2 = inr r.1 /\
  r.2 = similarity h.1.
Proof.
  unfold kept. destruct (_ <? _) eqn:Hlt; [|done].
  destruct (py_getitem docs _) as [e|c]; [done|]. intros [= <-]. simpl.
  split; [lia|done].
Qed.

(** The record kept for a row label is the record stored at that row. *)
Lemma kept_row docs (h : Q * Z) r :
  kept docs h = Some r -> 0 <= h.2 -> docs !! Z.to_nat h.2 = Some r.1.
Proof.
  intros (Hlt & Hget & _)%kept_Some Hnn.
  destruct (py_getitem_in_range docs h.2) as (x & Hx & Hx'); [lia|].
  rewrite Hx. congruence.
Qed.

(** The record kept for an unfilled slot is the last record of the
    store. *)
Lemma kept_slot docs (h : Q * Z) r :
  kept docs h = Some r -> h.2 = -1 -> last docs = Some r.1.
Proof.
  intros (Hlt & Hget & _)%kept_Some Hneg. rewrite Hneg in Hget.
  destruct docs as [|c docs]; [by rewrite py_getitem_empty in Hget|].
  destruct (py_getitem_last (c :: docs)) as (x & Hx & Hx'); [done|].
  rewrite Hx. congruence.
Qed.

Lemma kept_sorted docs hits :
  StronglySorted dist_le hits ->
  Forall (fun h : Q * Z => (0 <= h.1)%Q) hits ->
  StronglySorted sim_ge (omap (kept docs) hits).
Proof.
  induction 1 as [|[dist idx] rest Hs IH Hhd]; intros Hnn; simpl.
  - constructor.
  - apply Forall_cons in Hnn as [Hd Hrest]. simpl in Hd.
    destruct (kept docs (dist, idx)) as [[c s]|] eqn:Hk; [|by apply IH].
    constructor; [by apply IH|].
    apply Forall_forall. intros [c' s'] (h' & Hin & Hk')%list_elem_of_omap.
    rewrite Forall_forall in Hhd. specialize (Hhd _ Hin).
    apply kept_Some in Hk as (_ & _ & Hs1). apply kept_Some in Hk' as (_ & _ & Hs2).
    simpl in Hs1, Hs2. subst s s'.
    unfold sim_ge. simpl. by apply similarity_antitone.
Qed.

Lemma omap_length_le {A B} (f : A -> option B) (l : list A) :
  (length (omap f l) <= length l)%nat.
Proof. induction l as [|a l IH]; csimpl; [lia|]. destruct (f a); simpl; lia. Qed.

(** C6 (counterexample): the same one-chunk text was uploaded twice, so two
    rows of the index hold the same vector; both are returned with the same
    similarity, and the result is not strictly descending. *)
Lemma search_similar_ties_not_strict :
  exists w' results,
    search_similar env_healthy "q" (Some 2) world_twice = (w', inr results) /\
    ~ StronglySorted sim_gt results.
Proof.
  eexists _, _. split; [vm_compute; reflexivity|].
  intros Hs. apply StronglySorted_inv in Hs as [_ Hhd].
  apply Forall_inv in Hhd. vm_compute in Hhd. discriminate.
Qed.

(** C6 (amended): whenever [search_similar] returns, its result is sorted by
    non-increasing similarity (rows at the same distance tie), has at most
    [k] elements and at most as many as the index has vectors, and every
    element carries [1 / (1 + distance)], a number in (0,1], for the
    distance of one hit of the index search. For a hit with a row label the
    element is the record stored at that row and the distance is the
    squared distance of that row to the query embedding; for a slot that
    the search left unfilled (label [-1], distance [FLT_MAX]) the element
    is the last record of the store. The scores are those of the hits
    whose label is below the length of the store, one per hit and in the
    order of the hits.  [1 / (1 + x)] is strictly decreasing in [x] on
    non-negative [x]. *)
Theorem search_similar_ranking E query top_k w w' results :
  search_similar E query top_k w = (w', inr results) ->
  StronglySorted sim_ge results /\
  Z.of_nat (length results) <= Z.max 0 (default TOP_K_RESULTS top_k) /\
  (length results <= ntotal (index (rag w)))%nat /\
  Forall (fun r : Chunk * Q => exists v hits dist idx,
            (_get_embedding E query w).2 = inr v /\
            faiss_search (index (rag w)) v
              (Z.min (default TOP_K_RESULTS top_k)
                     (Z.of_nat (ntotal (index (rag w))))) = inr hits /\
            (dist, idx) ∈ hits /\
            r.2 = similarity dist /\ (0 < r.2)%Q /\ (r.2 <= 1)%Q /\
            (0 <= idx ->
             exists x, xb (index (rag w)) !! Z.to_nat idx = Some x /\
                       documents (rag w) !! Z.to_nat idx = Some r.1 /\
                       dist = l2sqr v x /\ (dist < FLT_MAX)%Q) /\
            (idx < 0 ->
             (dist, idx) = no_result /\
             last (documents (rag w)) = Some r.1)) results /\
  (ntotal (index (rag w)) <> 0%nat ->
   exists v hits,
     (_get_embedding E query w).2 = inr v /\
     faiss_search (index (rag w)) v
       (Z.min (default TOP_K_RESULTS top_k)
              (Z.of_nat (ntotal (index (rag w))))) = inr hits /\
     map snd results =
       map (fun h : Q * Z => similarity h.1)
           (filter (fun h : Q * Z => h.2 < Z.of_nat (length (documents (rag w))))
                   hits)) /\
  (forall x y : Q, (0 <= x)%Q -> (x < y)%Q -> (similarity y < similarity x)%Q).
Proof.
  intros Hrun.
  assert (Hmono : forall x y : Q, (0 <= x)%Q -> (x < y)%Q ->
                                  (similarity y < similarity x)%Q)
    by apply similarity_strict.
  destruct (decide (ntotal (index (rag w)) = 0%nat)) as [Hz|Hn].
  { rewrite search_similar_run in Hrun. apply Nat.eqb_eq in Hz as Hz'.
    rewrite Hz' in Hrun. injection Hrun as _ <-.
    repeat split; try done; try constructor.
    - simpl. lia.
    - simpl. lia. }
  destruct (search_similar_inr _ _ _ _ _ _ Hrun Hn) as (v & hits & Hemb & Hs & Hres).
  pose proof (search_similar_scores _ _ _ _ _ _ _ _ Hrun Hn Hemb Hs) as Hscores.
  subst results.
  pose proof (faiss_search_ok _ _ _ _ Hs) as (Hk & Hhits & Hlen & Hsorted & Hall).
  pose proof (omap_length_le (kept (documents (rag w))) hits) as Hle.
  split; [|split; [lia|split; [lia|split; [|split; [|done]]]]].
  3:{ intros _. exists v, hits. by rewrite Hemb. }
  - apply kept_sorted; [done|]. by eapply faiss_search_distances.
  - apply Forall_forall. intros r (h & Hin & Hkept)%list_elem_of_omap.
    rewrite Forall_forall in Hall. specialize (Hall h Hin).
    pose proof (hit_of_bounds _ _ _ Hall) as [Hlab Hd].
    pose proof (kept_Some _ _ _ Hkept) as (_ & _ & Hsim).
    exists v, hits, h.1, h.2. rewrite <- surjective_pairing, Hemb, Hsim.
    split; [done|]. split; [done|]. split; [done|]. split; [done|].
    split; [by apply similarity_pos|]. split; [by apply similarity_le_1|].
    split.
    + intros Hnn. destruct (hit_of_row _ _ _ Hall Hnn) as (Hlt & x & Hx & Hdx).
      exists x. split; [done|]. split; [by eapply kept_row|done].
    + intros Hneg. split; [by eapply hit_of_slot|].
      eapply kept_slot; [done|lia].
Qed.

Lemma search_similar_ranking_witness :
  exists w' results,
    search_similar env_healthy "qq" (Some 5) world_one_doc = (w', inr results) /\
    length results = 2%nat /\
    StronglySorted sim_ge results.
Proof.
  eexists _, _. split; [vm_compute; reflexivity|]. split; [reflexivity|].
  refine (proj1 (search_similar_ranking env_healthy "qq" (Some 5)
                   world_one_doc _ _ _)).
  vm_compute; reflexivity.
Defined.

(** C10 (the code departs from the claim): the guard of the loop compares a
    label with the length of the chunk store only from above. The label
    [-1] of a slot that the index search left unfilled passes it, and the
    store is read at [-1]. Here the embedding of the query lies so far from
    every stored row that each squared distance overflows [float32]: the
    search returns unfilled slots only. With rows in the index and an empty
    chunk store the lookup raises [IndexError]; with an aligned store every
    slot yields the last record of the store, a record of no row that the
    search has reported. *)
Theorem search_similar_unfilled_slot_lookup :
  faiss_search (index rag_rows_only) far_embedding 2 = inr [no_result; no_result] /\
  (search_similar env_far "q" None world_rows_only).2 = inl IndexError /\
  faiss_search (index rag_two_docs) far_embedding 3 =
    inr [no_result; no_result; no_result] /\
  exists w' results,
    search_similar env_far "q" None world_two_docs = (w', inr results) /\
    map (fun r : Chunk * Q => (document_id r.1, chunk_index r.1, r.2)) results =
      replicate 3 (8, 1%nat, similarity FLT_MAX).
Proof.
  split; [vm_compute; reflexivity|].
  split; [vm_compute; reflexivity|].
  split; [vm_compute; reflexivity|].
  eexists _, _. split; vm_compute; reflexivity.
Qed.

(** ** The source list of [get_context_for_query] *)

Lemma first_occurrences_elem ids x : x ∈ first_occurrences ids <-> x ∈ ids.
Proof.
  induction ids as [|id rest IH]; simpl; [done|].
  rewrite !elem_of_cons, list_elem_of_filter, IH.
  destruct (decide (x = id)); tauto.
Qed.

Lemma first_occurrences_NoDup ids : NoDup (first_occurrences ids).
Proof.
  induction ids as [|id rest IH]; simpl; constructor.
  - rewrite list_elem_of_filter. tauto.
  - by apply NoDup_filter.
Qed.

Lemma filter_filter_ext {A} (P1 P2 P3 : A -> Prop)
    `{!forall x, Decision (P1 x)} `{!forall x, Decision (P2 x)}
    `{!forall x, Decision (P3 x)} (l : list A) :
  (forall x, P1 x /\ P2 x <-> P3 x) -> filter P1 (filter P2 l) = filter P3 l.
Proof.
  intros Hiff. induction l as [|a l IH]; [done|].
  rewrite (filter_cons P2), (filter_cons P3). specialize (Hiff a).
  destruct (decide (P2 a)) as [H2|H2], (decide (P3 a)) as [H3|H3].
  - rewrite filter_cons. destruct (decide (P1 a)); [by rewrite IH|tauto].
  - rewrite filter_cons. destruct (decide (P1 a)); [tauto|done].
  - tauto.
  - done.
Qed.

Lemma filter_all {A} (P : A -> Prop) `{!forall x, Decision (P x)} (l : list A) :
  (forall x, P x) -> filter P l = l.
Proof.
  intros HP. induction l as [|a l IH]; [done|].
  rewrite filter_cons_True by done. by rewrite IH.
Qed.

Lemma context_loop_sources results : forall parts srcs seen,
  (context_loop results parts srcs seen).2 = srcs ++ loop_sources results seen.
Proof.
  induction results as [|[c s] rest IH]; intros parts srcs seen; simpl.
  - by rewrite app_nil_r.
  - destruct (decide (document_id c ∈ seen)); rewrite IH; [done|].
    by rewrite <- app_assoc.
Qed.

Lemma loop_sources_ids results : forall seen,
  map src_document_id (loop_sources results seen) =
  filter (fun x => x ∉ seen) (first_occurrences (result_ids results)).
Proof.
  induction results as [|[c s] rest IH]; intros seen; simpl; [done|].
  rewrite filter_cons.
  destruct (decide (document_id c ∈ seen)) as [Hin|Hin];
    destruct (decide (document_id c ∉ seen)) as [Hn|Hn]; try done.
  - rewrite IH. symmetry. apply filter_filter_ext.
    intros x. split; [tauto|]. intros Hx. split; [done|]. congruence.
  - simpl. rewrite IH. f_equal. symmetry. apply filter_filter_ext.
    intros x. rewrite elem_of_union, elem_of_singleton. tauto.
Qed.

Lemma loop_sources_top results : forall seen s,
  s ∈ loop_sources results seen ->
  (src_document_id s ∉ seen) /\
  exists r, top_chunk results (src_document_id s) = Some r /\ s = source_of r.
Proof.
  unfold top_chunk.
  induction results as [|[c sc] rest IH]; intros seen s; simpl.
  { intros Hin. by apply elem_of_nil in Hin. }
  destruct (decide (document_id c ∈ seen)) as [Hin|Hin].
  - intros Hs. apply IH in Hs as (Hs & r & Hr & ->).
    split; [done|]. exists r. split; [|done].
    rewrite bool_decide_eq_false_2; [done|].
    simpl in *. intros Heq. apply Hs. by rewrite <- Heq.
  - intros Hs. apply elem_of_cons in Hs as [->|Hs].
    + split; [done|]. exists (c, sc). by rewrite bool_decide_eq_true_2.
    + apply IH in Hs as (Hs & r & Hr & ->).
      rewrite elem_of_union, elem_of_singleton in Hs.
      split; [tauto|]. exists r. split; [|done].
      rewrite bool_decide_eq_false_2; [done|].
      simpl in *. intros Heq. apply Hs. left. by rewrite <- Heq.
Qed.

Lemma loop_sources_spec results :
  map src_document_id (loop_sources results ∅) =
    first_occurrences (result_ids results) /\
  NoDup (map src_document_id (loop_sources results ∅)) /\
  (forall id, id ∈ map src_document_id (loop_sources results ∅) <->
              id ∈ result_ids results) /\
  Forall (fun s => exists r,
            top_chunk results (src_document_id s) = Some r /\
            src_filename s = filename r.1 /\
            relevance_score s = r.2) (loop_sources results ∅).
Proof.
  assert (Hids : map src_document_id (loop_sources results ∅) =
                 first_occurrences (result_ids results)).
  { rewrite loop_sources_ids. apply filter_all.
    intros x. apply not_elem_of_empty. }
  split; [done|]. rewrite Hids.
  split; [apply first_occurrences_NoDup|].
  split; [apply first_occurrences_elem|].
  apply Forall_forall. intros s Hs.
  apply loop_sources_top in Hs as (_ & r & Hr & ->). eauto.
Qed.

(** C9: the source list built by [get_context_for_query] holds exactly one
    reference per distinct document id of the ranked results, in order of
    first occurrence, and each reference carries the filename and the score
    of the first (highest-ranked) chunk of its document. *)
Theorem get_context_sources_first_occurrence E query w w' context sources :
  get_context_for_query E query w = (w', inr (context, sources)) ->
  exists results,
    search_similar E query None w = (w', inr results) /\
    map src_document_id sources = first_occurrences (result_ids results) /\
    NoDup (map src_document_id sources) /\
    (forall id, id ∈ map src_document_id sources <-> id ∈ result_ids results) /\
    Forall (fun s => exists r,
              top_chunk results (src_document_id s) = Some r /\
              src_filename s = filename r.1 /\
              relevance_score s = r.2) sources.
Proof.
  unfold get_context_for_query. unfold bind at 1.
  destruct (search_similar E query None w) as [w1 [e|results]] eqn:Hs; [done|].
  intros Hret. exists results.
  assert (w1 = w' /\ sources = loop_sources results ∅) as [-> ->].
  { destruct results as [|r0 rest]; unfold ret in Hret.
    - by injection Hret as <- _ <-.
    - injection Hret as <- _ <-. split; [done|].
      exact (context_loop_sources (r0 :: rest) [] [] ∅). }
  split; [done|]. apply loop_sources_spec.
Qed.

Lemma get_context_sources_first_occurrence_witness :
  exists w' context sources results,
    get_context_for_query env_healthy "qqqq" world_two_docs
      = (w', inr (context, sources)) /\
    search_similar env_healthy "qqqq" None world_two_docs = (w', inr results) /\
    result_ids results = [8; 7; 8] /\
    map src_document_id sources = [8; 7].
Proof.
  eexists _, _, _, _. split; [vm_compute; reflexivity|].
  split; [vm_compute; reflexivity|]. split; [reflexivity|].
  destruct (get_context_sources_first_occurrence env_healthy "qqqq"
              world_two_docs _ _ _ eq_refl) as (results & Hs & Hids & _).
  vm_compute in Hs. injection Hs as <-. exact Hids.
Defined.

(** ** [query] *)

Section QueryFacts.
Context (E : Env).

Lemma _get_cached_response_run query w :
  _get_cached_response E query w = (w, inr (cache_lookup E w query)).
Proof.
  unfold _get_cached_response, cache_lookup. unfold_m.
  destruct (redis_client w) as [r|]; [|done].
  by destruct (redis_get r (clock w) (_get_cache_key E query)).
Qed.

Lemma _cache_response_run query resp w :
  _cache_response E query resp w = (cache_store E query resp w, inr tt).
Proof.
  unfold _cache_response, cache_store. unfold_m.
  destruct (redis_client w) as [r|]; [|done].
  by destruct (redis_setex r (clock w) (_get_cache_key E query) CACHE_TTL resp).
Qed.

Lemma get_context_frame query w w' r :
  get_context_for_query E query w = (w', r) ->
  rag w' = rag w /\ redis_client w' = redis_client w /\ clock w' = clock w.
Proof.
  unfold get_context_for_query. unfold bind at 1.
  destruct (search_similar E query None w) as [w1 [e|results]] eqn:Hs;
    apply search_similar_frame in Hs.
  - by intros [= <- _].
  - destruct results; unfold ret; by intros [= <- _].
Qed.

Lemma post_generate_frame prompt w w' r :
  post_generate E prompt w = (w', r) ->
  rag w' = rag w /\ redis_client w' = redis_client w /\ clock w' = clock w /\
  calls w' = calls w ++ [PostGenerate prompt].
Proof.
  unfold post_generate. unfold_m. simpl.
  destruct (generate_api E (calls w) prompt) as [msg|[err|] [v|]];
    intros [= <- <-]; auto.
Qed.

(** With no vector in the index, retrieval answers at once, without any
    backend call. *)
Lemma get_context_empty_index query w :
  ntotal (index (rag w)) = 0%nat ->
  get_context_for_query E query w = (w, inr (EmptyString, [])).
Proof.
  intros Hn. unfold get_context_for_query. unfold bind at 1.
  rewrite search_similar_run, Hn. done.
Qed.

(** [query], step by step. *)
Lemma query_run user_query w :
  query E user_query w =
  match cache_lookup E w user_query with
  | Some c => (w, inr (response c, sources c, true))
  | None =>
      match get_context_for_query E user_query w with
      | (w1, inl e) => (w1, inl e)
      | (w1, inr (context, srcs)) =>
          if decide (context = EmptyString) then
            (w1, inr (NO_DOCUMENTS, [], false))
          else
            match post_generate E (_build_prompt user_query context) w1 with
            | (w2, inr answer) =>
                (cache_store E user_query
                   {| response := answer; sources := srcs |} w2,
                 inr (answer, srcs, false))
            | (w2, inl e) =>
                (cache_store E user_query
                   {| response := error_answer e; sources := [] |} w2,
                 inr (error_answer e, [], false))
            end
      end
  end.
Proof.
  unfold query. unfold bind at 1. rewrite _get_cached_response_run.
  destruct (cache_lookup E w user_query) as [c|]; [done|].
  unfold bind at 1.
  destruct (get_context_for_query E user_query w) as [w1 [e|[context srcs]]];
    [done|]. simpl.
  destruct (decide (context = EmptyString)); [done|].
  unfold bind at 1. unfold try_except, bind at 1.
  destruct (post_generate E (_build_prompt user_query context) w1)
    as [w2 [e|answer]]; unfold ret at 1; simpl;
    unfold bind; rewrite _cache_response_run; done.
Qed.

(** A cached entry that is still alive is returned as it is. *)
Lemma query_hit user_query w c :
  cache_lookup E w user_query = Some c ->
  query E user_query w = (w, inr (response c, sources c, true)).
Proof. intros H. by rewrite query_run, H. Qed.

(** After a write through a reachable client, the entry is read back until
    it expires. *)
Lemma cache_lookup_after_store user_query resp w r t :
  redis_client w = Some r -> reachable r = true ->
  clock w <= t < clock w + CACHE_TTL ->
  cache_lookup E (at_time (cache_store E user_query resp w) t) user_query
    = Some resp.
Proof.
  intros Hr Hup Ht. unfold cache_lookup, cache_store, at_time.
  rewrite Hr. unfold redis_setex. rewrite Hup. simpl.
  unfold redis_get. simpl. rewrite lookup_insert_eq.
  replace (t <? clock w + CACHE_TTL) with true by lia. done.
Qed.

End QueryFacts.

(** C2 (defect of the code): a failed generation is written to the cache.
    With one document indexed and the generation backend down, [query]
    answers with the error string, stores it under the key of the query for
    [CACHE_TTL] seconds, and the same query asked again, now with a healthy
    backend, is served the error string from the cache. *)
Theorem query_caches_generation_failure :
  exists w2 r,
    query env_generate_down "what?" world_one_doc
      = (w2, inr ("Error generating response: connection refused", [], false)) /\
    redis_client w2 = Some r /\
    store r !! _get_cache_key env_generate_down "what?"
      = Some ({| response := "Error generating response: connection refused";
                 sources := [] |}, CACHE_TTL) /\
    (query env_healthy "what?" w2).2
      = inr ("Error generating response: connection refused", [], true).
Proof.
  eexists _, _. split; [vm_compute; reflexivity|].
  split; [reflexivity|]. split; vm_compute; reflexivity.
Qed.

(** The defect in general: whenever the cache is reachable and generation
    raises, the error answer is what the next read of the cache finds. *)
Lemma query_generation_failure_is_cached E user_query w r w1 context srcs w2 e t :
  redis_client w = Some r -> reachable r = true ->
  cache_lookup E w user_query = None ->
  get_context_for_query E user_query w = (w1, inr (context, srcs)) ->
  context <> EmptyString ->
  post_generate E (_build_prompt user_query context) w1 = (w2, inl e) ->
  clock w <= t < clock w + CACHE_TTL ->
  cache_lookup E (at_time (query E user_query w).1 t) user_query
    = Some {| response := error_answer e; sources := [] |}.
Proof.
  intros Hr Hup Hmiss Hctx Hne Hgen Ht.
  rewrite query_run, Hmiss, Hctx. destruct (decide _) as [|_]; [done|].
  rewrite Hgen. simpl.
  apply get_context_frame in Hctx as (_ & Hr1 & Hc1).
  apply post_generate_frame in Hgen as (_ & Hr2 & Hc2 & _).
  apply cache_lookup_after_store with r; [congruence|done|lia].
Qed.

(** C5 (counterexample): retrieval finds context and one source, generation
    fails, and the triple returned by [query] has an empty source list. *)
Lemma query_generation_failure_drops_sources :
  exists w1 context srcs w2 answer,
    get_context_for_query env_generate_down "what?" world_one_doc
      = (w1, inr (context, srcs)) /\
    context <> EmptyString /\ srcs <> [] /\
    (post_generate env_generate_down (_build_prompt "what?" context) w1).2
      = inl (ConnectionError "connection refused") /\
    query env_generate_down "what?" world_one_doc
      = (w2, inr (answer, [], false)).
Proof.
  eexists _, _, _, _, _. split; [vm_compute; reflexivity|].
  split; [discriminate|]. split; [discriminate|].
  split; vm_compute; reflexivity.
Qed.

(** C5 (amended): when the cache misses, retrieval finds a non-empty context
    and the generation call raises [e], [query] returns the error string for
    [e] with an empty source list and [cache_hit = False]: the sources of
    retrieval are discarded. *)
Theorem query_generation_failure_result E user_query w w1 context srcs w2 e :
  cache_lookup E w user_query = None ->
  get_context_for_query E user_query w = (w1, inr (context, srcs)) ->
  context <> EmptyString ->
  post_generate E (_build_prompt user_query context) w1 = (w2, inl e) ->
  (query E user_query w).2 = inr (error_answer e, [], false).
Proof.
  intros Hmiss Hctx Hne Hgen.
  rewrite query_run, Hmiss, Hctx. destruct (decide _) as [|_]; [done|].
  by rewrite Hgen.
Qed.

Lemma query_generation_failure_result_witness :
  (query env_generate_down "what?" world_one_doc).2
    = inr (error_answer (ConnectionError "connection refused"), [], false).
Proof.
  eapply (query_generation_failure_result env_generate_down "what?" world_one_doc).
  - reflexivity.
  - vm_compute; reflexivity.
  - discriminate.
  - vm_compute; reflexivity.
Defined.

(** C7 (counterexample): the index is empty but the cache still holds an
    answer for the query; [query] returns that answer with
    [cache_hit = True], not the canned one. *)
Lemma query_empty_index_stale_cache_hits :
  ntotal (index (rag world_empty_index_stale_cache)) = 0%nat /\
  query env_healthy "what?" world_empty_index_stale_cache
    = (world_empty_index_stale_cache, inr ("It is 42.", [], true)).
Proof. split; [reflexivity|]. vm_compute; reflexivity. Qed.

(** C7 (amended): for a query issued while the index holds no vector and
    whose cache read misses, [query] returns the canned answer with no
    sources and [cache_hit = False], and leaves the world as it was: no
    backend call is logged and nothing is written to the cache. Retrieval
    itself returns the empty context and no sources, cache or not. *)
Theorem query_empty_index E user_query w :
  ntotal (index (rag w)) = 0%nat ->
  cache_lookup E w user_query = None ->
  query E user_query w = (w, inr (NO_DOCUMENTS, [], false)) /\
  get_context_for_query E user_query w = (w, inr (EmptyString, [])).
Proof.
  intros Hn Hmiss. split; [|by apply get_context_empty_index].
  by rewrite query_run, Hmiss, get_context_empty_index.
Qed.

Lemma query_empty_index_witness :
  query env_healthy "anything" world_fresh
    = (world_fresh, inr (NO_DOCUMENTS, [], false)).
Proof.
  apply (proj1 (query_empty_index env_healthy "anything" world_fresh
                  eq_refl eq_refl)).
Defined.




(** * Further properties of the two services *)

(** ** [index_document] *)

Lemma chunk_records_lookup document_id filename chunks : forall i j,
  chunk_records document_id filename i chunks !! j =
  (fun chunk => {| document_id := document_id; filename := filename;
                   chunk_index := i + j; content := chunk |}) <$> chunks !! j.
Proof.
  induction chunks as [|c rest IH]; intros i j; [done|].
  destruct j as [|j]; simpl.
  - by rewrite Nat.add_0_r.
  - rewrite IH. by replace (S i + j)%nat with (i + S j)%nat by lia.
Qed.

(** What the embedding loop logs and collects when it completes. *)
Lemma embed_chunks_collects (E : Env) chunks :
  forall document_id filename i embs w w' embs',
  embed_chunks E document_id filename i chunks embs w = (w', inr embs') ->
  calls w' = calls w ++ map PostEmbeddings chunks /\
  exists new, embs' = embs ++ new /\
    Forall2 (fun chunk v => exists log,
               embeddings_api E log chunk = HttpReply None (Some v)) chunks new.
Proof.
  induction chunks as [|chunk rest IH]; intros document_id filename i embs w w' embs'.
  - simpl. unfold_m. intros [= <- <-]. rewrite !app_nil_r. split; [done|].
    exists []. by rewrite app_nil_r.
  - simpl. unfold bind at 1.
    destruct (_get_embedding E chunk w) as [w1 [e|v]] eqn:Hemb; [done|].
    assert (Hv : embeddings_api E (calls w) chunk = HttpReply None (Some v)).
    { unfold _get_embedding in Hemb. unfold_m. simpl in Hemb.
      destruct (embeddings_api E (calls w) chunk) as [msg|[err|] [v'|]];
        by simplify_eq. }
    apply _get_embedding_frame in Hemb as (_ & _ & _ & Hcalls).
    unfold bind at 1. unfold documents_append. unfold_m. simpl.
    intros Hrest. apply IH in Hrest as (Hc & new & -> & Hall). simpl in Hc.
    split; [by rewrite Hc, Hcalls, <- app_assoc|].
    exists (v :: new). rewrite <- app_assoc. split; [done|].
    constructor; [by exists (calls w)|done].
Qed.

(** X1: a successful [index_document] keeps the chunk-to-vector pairing. In
    an aligned state, for every chunk [j] of the text, the new row
    [ntotal + j] of the index holds a vector that the backend returned for
    that chunk, and the record at the same position of the chunk store
    carries the document id, the filename, the chunk number [j] and the
    text of the chunk. Each chunk is embedded exactly once, in order, and
    the returned reference names the document id and the chunk count. *)
Theorem index_document_pairs_rows E document_id filename content w w' ref :
  aligned (rag w) ->
  index_document E document_id filename content w = (w', inr ref) ->
  let chunks := split_text E content in
  let n := ntotal (index (rag w)) in
  (forall j chunk, chunks !! j = Some chunk ->
     exists v log,
       embeddings_api E log chunk = HttpReply None (Some v) /\
       xb (index (rag w')) !! (n + j)%nat = Some v /\
       documents (rag w') !! (n + j)%nat =
         Some {| document_id := document_id; filename := filename;
                 chunk_index := j; content := chunk |}) /\
  ntotal (index (rag w')) = (n + length chunks)%nat /\
  calls w' = calls w ++ map PostEmbeddings chunks /\
  ref = "doc_" +:+ pretty document_id +:+ "_" +:+ pretty (length chunks)
        +:+ "_chunks".
Proof.
  intros Hal Hrun. cbv zeta. unfold aligned, ntotal in *.
  set (chunks := split_text E content).
  pose proof (index_document_ok E _ _ _ _ _ _ Hrun) as (Hdocs & embs0 & Hlen0 & Hxb0 & _).
  unfold index_document in Hrun. fold chunks in Hrun. unfold bind at 1 in Hrun.
  destruct (embed_chunks E document_id filename 0 chunks [] w)
    as [w1 [e|embs]] eqn:Hloop; [done|].
  pose proof (embed_chunks_collects E _ _ _ _ _ _ _ _ Hloop)
    as (Hcalls & new & Hnew & Hall). simpl in Hnew. subst embs.
  unfold index_add, _save_index in Hrun. unfold_m.
  destruct (faiss_add (index (rag w1)) new) as [e|ix] eqn:Hadd; [done|].
  simpl in Hrun. injection Hrun as <- <-. simpl in *.
  assert (Hxb : xb ix = xb (index (rag w)) ++ new).
  { apply embed_chunks_run in Hloop as (Hix & _).
    unfold faiss_add in Hadd. destruct new as [|v0 new0]; [done|].
    destruct (forallb _ _); [|done]. destruct (_ =? _)%nat; [|done].
    injection Hadd as <-. simpl. by rewrite Hix. }
  split; [|split; [|done]].
  - intros j chunk Hj.
    destruct (Forall2_lookup_l _ _ _ _ _ Hall Hj) as (v & Hv & log & Hlog).
    exists v, log. split; [done|]. split.
    + rewrite Hxb, lookup_app_r by lia.
      by replace (length (xb (index (rag w))) + j - length (xb (index (rag w))))%nat
        with j by lia.
    + rewrite Hdocs, lookup_app_r by lia.
      replace (length (xb (index (rag w))) + j - length (documents (rag w)))%nat
        with j by lia.
      rewrite chunk_records_lookup. fold chunks. by rewrite Hj.
  - rewrite Hxb, length_app. f_equal. symmetry. by eapply Forall2_length.
Qed.

Lemma index_document_pairs_rows_witness :
  exists w' ref,
    index_document env_healthy 8 "b.txt" "ccccdd" world_one_doc = (w', inr ref) /\
    documents (rag w') !! 3%nat =
      Some {| document_id := 8; filename := "b.txt";
              chunk_index := 1; content := "dd" |} /\
    xb (index (rag w')) !! 3%nat = Some (toy_embedding "dd").
Proof.
  eexists _, _. split; [vm_compute; reflexivity|].
  destruct (index_document_pairs_rows env_healthy 8 "b.txt" "ccccdd"
              world_one_doc _ _ eq_refl eq_refl) as (Hrows & _).
  destruct (Hrows 1%nat "dd" eq_refl) as (v & log & _ & _ & Hdoc).
  split; [exact Hdoc|]. vm_compute; reflexivity.
Defined.

(** X2: a failed [index_document] never touches the vector index, the cache
    or the clock; the chunk store can only have grown, by the records of
    the first [j] chunks of the text for some [j]. *)
Theorem index_document_failure_frame E document_id filename content w w' e :
  index_document E document_id filename content w = (w', inl e) ->
  index (rag w') = index (rag w) /\
  redis_client w' = redis_client w /\ clock w' = clock w /\
  exists j, (j <= length (split_text E content))%nat /\
    documents (rag w') =
      documents (rag w) ++
      chunk_records document_id filename 0 (take j (split_text E content)).
Proof.
  unfold index_document. unfold bind at 1.
  destruct (embed_chunks E document_id filename 0 (split_text E content) [] w)
    as [w1 [e1|embs]] eqn:Hloop;
    apply embed_chunks_run in Hloop as (Hix & Hr & Hc & j & Hdocs & Hres).
  - intros [= <- _]. repeat split; try done. exists j. split; [lia|done].
  - unfold index_add, _save_index. unfold_m.
    destruct (faiss_add (index (rag w1)) embs) as [e1|ix] eqn:Hadd; [|done].
    intros [= <- _]. repeat split; try done. exists j. split; [lia|done].
Qed.

Lemma index_document_failure_frame_witness :
  exists w' e,
    index_document env_embed_flaky 7 "a.txt" "aaaabb" world_fresh = (w', inl e) /\
    index (rag w') = index (rag world_fresh).
Proof.
  eexists _, _. split; [vm_compute; reflexivity|].
  refine (proj1 (index_document_failure_frame env_embed_flaky 7 "a.txt"
                   "aaaabb" world_fresh _ _ _)).
  vm_compute; reflexivity.
Defined.

(** X3: a text that the splitter cuts into no chunk at all (an empty text)
    cannot be indexed: [index_document] fails in [index.add] with a
    [ValueError], without any backend call and without changing anything. *)
Theorem index_document_no_chunks E document_id filename content w :
  split_text E content = [] ->
  index_document E document_id filename content w =
    (w, inl (ValueError "not enough values to unpack (expected 2, got 1)")).
Proof.
  intros Hsplit. unfold index_document. rewrite Hsplit. simpl.
  unfold index_add. unfold_m. simpl. done.
Qed.

Lemma index_document_no_chunks_witness :
  index_document env_healthy 7 "a.txt" EmptyString world_one_doc =
    (world_one_doc, inl (ValueError "not enough values to unpack (expected 2, got 1)")).
Proof. apply (index_document_no_chunks env_healthy 7 "a.txt" EmptyString). reflexivity. Defined.

(** ** [search_similar] *)

Lemma _get_embedding_answer (E : Env) text w v :
  embeddings_api E (calls w) text = HttpReply None (Some v) ->
  _get_embedding E text w = ((log_call (PostEmbeddings text) w).1, inr v).
Proof. intros H. unfold _get_embedding. unfold_m. simpl. by rewrite H. Qed.


(** On a store that is not empty, every label from [-1] to below its
    length finds a record. *)
Lemma kept_is_Some docs (h : Q * Z) :
  docs <> [] -> -1 <= h.2 < Z.of_nat (length docs) ->
  exists c, kept docs h = Some (c, similarity h.1).
Proof.
  intros Hne Hlab. unfold kept.
  replace (h.2 <? Z.of_nat (length docs)) with true by lia.
  destruct (decide (h.2 = -1)) as [->|Hn].
  - destruct (py_getitem_last docs Hne) as (x & _ & ->). by exists x.
  - destruct (py_getitem_in_range docs h.2) as (x & _ & ->); [lia|]. by exists x.
Qed.

Lemma kept_all docs hits :
  docs <> [] ->
  Forall (fun h : Q * Z => -1 <= h.2 < Z.of_nat (length docs)) hits ->
  length (omap (kept docs) hits) = length hits.
Proof.
  intros Hne. induction 1 as [|h rest Hidx _ IH]; [done|].
  csimpl. destruct (kept_is_Some docs h Hne Hidx) as [c ->].
  simpl. by rewrite IH.
Qed.

Lemma aligned_nonempty (r : RAGService) :
  aligned r -> ntotal (index r) <> 0%nat -> documents r <> [].
Proof.
  unfold aligned. intros Hal Hn Hnil. rewrite Hnil in Hal. simpl in Hal. lia.
Qed.

Lemma search_similar_effects E query top_k w w' r :
  search_similar E query top_k w = (w', r) ->
  rag w' = rag w /\ redis_client w' = redis_client w /\ clock w' = clock w /\
  calls w' = if (ntotal (index (rag w)) =? 0)%nat then calls w
             else calls w ++ [PostEmbeddings query].
Proof.
  rewrite search_similar_run. destruct (_ =? _)%nat.
  - intros [= <- _]. auto.
  - destruct (_get_embedding E query w) as [w1 [e|v]] eqn:Hemb;
      apply _get_embedding_frame in Hemb as (? & ? & ? & ?);
      intros [= <- _]; auto.
Qed.

(** X4: [search_similar] only reads: it never changes the index, the chunk
    store, the cache or the clock, whether it returns or raises. It sends
    exactly one request to the embedding backend, with the query text, and
    none at all when the index is empty. *)
Theorem search_similar_read_only E query top_k w w' r :
  search_similar E query top_k w = (w', r) ->
  rag w' = rag w /\ redis_client w' = redis_client w /\ clock w' = clock w /\
  calls w' = if (ntotal (index (rag w)) =? 0)%nat then calls w
             else calls w ++ [PostEmbeddings query].
Proof. apply search_similar_effects. Qed.

Lemma search_similar_read_only_witness :
  calls (search_similar env_healthy "qq" None world_one_doc).1
    = [PostEmbeddings "qq"] /\
  rag (search_similar env_healthy "qq" None world_one_doc).1 = rag world_one_doc.
Proof.
  destruct (search_similar_read_only env_healthy "qq" None world_one_doc _ _
              (surjective_pairing _)) as (Hrag & _ & _ & Hcalls).
  split; [exact Hcalls|exact Hrag].
Defined.

(** X5: in an aligned state nothing is dropped. When the index is not
    empty, the backend answers the query with a vector of the dimension of
    the index and [k >= 1], [search_similar] returns exactly [min(k, ntotal)]
    results. *)
Theorem search_similar_aligned_full E query k w v :
  aligned (rag w) ->
  ntotal (index (rag w)) <> 0%nat ->
  embeddings_api E (calls w) query = HttpReply None (Some v) ->
  length v = d (index (rag w)) ->
  1 <= k ->
  exists w' results,
    search_similar E query (Some k) w = (w', inr results) /\
    Z.of_nat (length results) = Z.min k (Z.of_nat (ntotal (index (rag w)))).
Proof.
  intros Hal Hn Hv Hd Hk. rewrite search_similar_run.
  destruct (_ =? _)%nat eqn:Hz; [apply Nat.eqb_eq in Hz; done|].
  rewrite (_get_embedding_answer E query w v Hv). simpl.
  destruct (faiss_search _ _ _) as [e|hits] eqn:Hs.
  { unfold faiss_search in Hs. rewrite Hd, Nat.eqb_refl in Hs. simpl in Hs.
    replace (0 <? _) with true in Hs by lia. done. }
  pose proof (faiss_search_labels _ _ _ _ Hs) as Hlab.
  pose proof (aligned_nonempty _ Hal Hn) as Hne.
  rewrite (collect_results_nonempty _ _ [] Hne).
  2:{ eapply Forall_impl; [exact Hlab|]. simpl. intros; lia. }
  eexists _, _. split; [reflexivity|]. simpl.
  rewrite kept_all; [|done|].
  - apply faiss_search_ok in Hs as (_ & _ & -> & _). lia.
  - unfold aligned in Hal. by rewrite <- Hal.
Qed.

Lemma search_similar_aligned_full_witness :
  exists w' results,
    search_similar env_healthy "qq" (Some 5) world_one_doc = (w', inr results) /\
    Z.of_nat (length results) = 2.
Proof.
  apply (search_similar_aligned_full env_healthy "qq" 5 world_one_doc
           (toy_embedding "qq")); try reflexivity; try discriminate.
Defined.

(** X6: the arguments that the index search refuses. On a non-empty index,
    a [top_k] of zero or less, or a query embedding whose dimension is not
    the one of the index, makes [search_similar] fail with an assertion
    error; on an empty index every [top_k] gives the empty list. *)
Theorem search_similar_bad_arguments E query k w :
  (ntotal (index (rag w)) = 0%nat ->
   search_similar E query (Some k) w = (w, inr [])) /\
  (forall v, ntotal (index (rag w)) <> 0%nat ->
     embeddings_api E (calls w) query = HttpReply None (Some v) ->
     k <= 0 \/ length v <> d (index (rag w)) ->
     (search_similar E query (Some k) w).2 = inl AssertionError).
Proof.
  split.
  - intros Hn. by rewrite search_similar_run, Hn.
  - intros v Hn Hv Hbad. rewrite search_similar_run.
    destruct (_ =? _)%nat eqn:Hz; [apply Nat.eqb_eq in Hz; done|].
    rewrite (_get_embedding_answer E query w v Hv). simpl.
    unfold faiss_search.
    destruct (length v =? d (index (rag w)))%nat eqn:Hd; simpl; [|done].
    destruct Hbad as [Hk|Hne]; [|apply Nat.eqb_eq in Hd; done].
    replace (0 <? _) with false by lia. done.
Qed.

Lemma search_similar_bad_arguments_witness :
  search_similar env_healthy "qq" (Some 0) world_fresh = (world_fresh, inr []) /\
  (search_similar env_healthy "qq" (Some 0) world_one_doc).2 = inl AssertionError /\
  (search_similar env_short_vectors "qq" (Some 3) world_one_doc).2
    = inl AssertionError.
Proof.
  split; [|split].
  - apply (proj1 (search_similar_bad_arguments env_healthy "qq" 0 world_fresh)).
    reflexivity.
  - apply (proj2 (search_similar_bad_arguments env_healthy "qq" 0 world_one_doc)
             (toy_embedding "qq")); [discriminate|reflexivity|left; reflexivity].
  - apply (proj2 (search_similar_bad_arguments env_short_vectors "qq" 3 world_one_doc)
             [1%Q; 2%Q]); [discriminate|reflexivity|right; discriminate].
Defined.

(** With the order in which [ranked] lists rows at equal distance, a
    larger [top_k] only appends results. *)
Lemma search_similar_prefix E query k1 k2 w w1 w2 r1 r2 :
  1 <= k1 <= k2 ->
  search_similar E query (Some k1) w = (w1, inr r1) ->
  search_similar E query (Some k2) w = (w2, inr r2) ->
  r1 `prefix_of` r2.
Proof.
  intros Hk H1 H2.
  destruct (decide (ntotal (index (rag w)) = 0%nat)) as [Hz|Hn].
  { rewrite search_similar_run in H1, H2. apply Nat.eqb_eq in Hz.
    rewrite Hz in H1, H2. injection H1 as _ <-. apply prefix_nil. }
  destruct (search_similar_inr _ _ _ _ _ _ H1 Hn) as (v1 & hits1 & He1 & Hs1 & ->).
  destruct (search_similar_inr _ _ _ _ _ _ H2 Hn) as (v2 & hits2 & He2 & Hs2 & ->).
  rewrite He1 in He2. injection He2 as _ <-.
  apply faiss_search_ok in Hs1 as (_ & -> & _).
  apply faiss_search_ok in Hs2 as (_ & -> & _).
  simpl. set (n := Z.of_nat (ntotal (index (rag w)))).
  set (l := found (index (rag w)) v1).
  rewrite <- (take_resize_le l (Z.to_nat (Z.min k1 n)) (Z.to_nat (Z.min k2 n)))
    by lia.
  rewrite <- (take_drop (Z.to_nat (Z.min k1 n))
                (resize (Z.to_nat (Z.min k2 n)) no_result l)) at 2.
  rewrite omap_app. by apply prefix_app_r.
Qed.

(** X7: asking for more results only appends scores. In an aligned state
    (where no row is dropped, so that the scores do not depend on how rows
    at equal distance are ordered), for [1 <= k1 <= k2], the similarity
    scores returned by [search_similar] with [top_k = k1] are the first
    scores of those returned with [top_k = k2] in the same state. *)
Theorem search_similar_scores_prefix_in_k E query k1 k2 w w1 w2 r1 r2 :
  aligned (rag w) ->
  1 <= k1 <= k2 ->
  search_similar E query (Some k1) w = (w1, inr r1) ->
  search_similar E query (Some k2) w = (w2, inr r2) ->
  map snd r1 `prefix_of` map snd r2.
Proof.
  intros _ Hk H1 H2.
  destruct (search_similar_prefix E query k1 k2 w w1 w2 r1 r2 Hk H1 H2)
    as [tail ->].
  exists (map snd tail). by rewrite map_app.
Qed.

Lemma search_similar_scores_prefix_in_k_witness :
  exists w1 w2 r1 r2,
    search_similar env_healthy "qqqq" (Some 1) world_two_docs = (w1, inr r1) /\
    search_similar env_healthy "qqqq" (Some 3) world_two_docs = (w2, inr r2) /\
    length r1 = 1%nat /\ length r2 = 3%nat /\ map snd r1 `prefix_of` map snd r2.
Proof.
  eexists _, _, _, _. split; [vm_compute; reflexivity|].
  split; [vm_compute; reflexivity|]. split; [reflexivity|]. split; [reflexivity|].
  refine (search_similar_scores_prefix_in_k env_healthy "qqqq" 1 3 world_two_docs
            _ _ _ _ eq_refl _ _ _).
  - split; discriminate.
  - vm_compute; reflexivity.
  - vm_compute; reflexivity.
Defined.




(** ** [get_context_for_query] *)

Lemma search_similar_shape E query top_k w w' results :
  search_similar E query top_k w = (w', inr results) ->
  StronglySorted sim_ge results /\
  Forall (fun r : Chunk * Q => (0 < r.2)%Q /\ (r.2 <= 1)%Q) results /\
  Z.of_nat (length results) <= Z.max 0 (default TOP_K_RESULTS top_k).
Proof.
  intros Hrun.
  destruct (decide (ntotal (index (rag w)) = 0%nat)) as [Hz|Hn].
  { rewrite search_similar_run in Hrun. apply Nat.eqb_eq in Hz.
    rewrite Hz in Hrun. injection Hrun as _ <-.
    split; [constructor|]. split; [constructor|]. simpl. lia. }
  destruct (search_similar_inr _ _ _ _ _ _ Hrun Hn) as (v & hits & _ & Hs & ->).
  pose proof (faiss_search_distances _ _ _ _ Hs) as Hnn.
  apply faiss_search_ok in Hs as (Hk & Hhits & Hlen & Hsorted & Hall).
  split; [by apply kept_sorted|]. split.
  - apply Forall_forall. intros r (h & Hin & Hkept)%list_elem_of_omap.
    rewrite Forall_forall in Hnn. specialize (Hnn h Hin).
    apply kept_Some in Hkept as (_ & _ & ->).
    split; [by apply similarity_pos|by apply similarity_le_1].
  - pose proof (omap_length_le (kept (documents (rag w))) hits) as Hle.
    lia.
Qed.

Lemma loop_sources_Forall (P : Source -> Prop) results : forall seen,
  Forall (fun r => P (source_of r)) results ->
  Forall P (loop_sources results seen).
Proof.
  induction results as [|r rest IH]; intros seen Hall; simpl; [constructor|].
  apply Forall_cons in Hall as [Hr Hrest].
  destruct (decide (document_id r.1 ∈ seen)); [by apply IH|].
  constructor; [done|by apply IH].
Qed.

Lemma loop_sources_sorted results : forall seen,
  StronglySorted sim_ge results ->
  StronglySorted src_ge (loop_sources results seen).
Proof.
  induction results as [|r rest IH]; intros seen Hs; simpl; [constructor|].
  apply StronglySorted_inv in Hs as [Hrest Hhd].
  destruct (decide (document_id r.1 ∈ seen)); [by apply IH|].
  constructor; [by apply IH|].
  apply loop_sources_Forall. eapply Forall_impl; [exact Hhd|]. by intros r'.
Qed.

Lemma loop_sources_length results : forall seen,
  (length (loop_sources results seen) <= length results)%nat.
Proof.
  induction results as [|r rest IH]; intros seen; simpl; [lia|].
  destruct (decide (document_id r.1 ∈ seen)); simpl.
  - specialize (IH seen). lia.
  - specialize (IH ({[document_id r.1]} ∪ seen)). lia.
Qed.

Lemma get_context_inv E query w w' context sources :
  get_context_for_query E query w = (w', inr (context, sources)) ->
  exists results,
    search_similar E query None w = (w', inr results) /\
    context = str_join SEPARATOR (map (fun r : Chunk * Q => content r.1) results) /\
    sources = loop_sources results ∅.
Proof.
  unfold get_context_for_query. unfold bind at 1.
  destruct (search_similar E query None w) as [w1 [e|results]] eqn:Hs; [done|].
  intros Hret. exists results.
  assert (Hparts : forall l parts srcs seen,
            (context_loop l parts srcs seen).1 =
            parts ++ map (fun r : Chunk * Q => content r.1) l).
  { induction l as [|[c s] l IH]; intros parts srcs seen; simpl.
    - by rewrite app_nil_r.
    - destruct (decide (document_id c ∈ seen)); rewrite IH;
        by rewrite <- app_assoc. }
  destruct results as [|r0 rest]; unfold ret in Hret.
  - by injection Hret as <- <- <-.
  - injection Hret as <- <- <-. split; [done|]. split.
    + f_equal. exact (Hparts (r0 :: rest) [] [] ∅).
    + exact (context_loop_sources (r0 :: rest) [] [] ∅).
Qed.

(** X9: the source list is ranked. Whenever [get_context_for_query]
    returns, its sources are in order of non-increasing relevance score,
    every score lies in (0,1], and there are at most [TOP_K_RESULTS]
    sources. *)
Theorem get_context_sources_ranked E query w w' context sources :
  get_context_for_query E query w = (w', inr (context, sources)) ->
  StronglySorted src_ge sources /\
  Forall (fun s => (0 < relevance_score s)%Q /\ (relevance_score s <= 1)%Q) sources /\
  Z.of_nat (length sources) <= TOP_K_RESULTS.
Proof.
  intros (results & Hs & _ & ->)%get_context_inv.
  apply search_similar_shape in Hs as (Hsorted & Hall & Hlen).
  split; [by apply loop_sources_sorted|]. split.
  - apply loop_sources_Forall. eapply Forall_impl; [exact Hall|]. by intros r.
  - pose proof (loop_sources_length results ∅). simpl in Hlen.
    unfold TOP_K_RESULTS in *. lia.
Qed.

Lemma get_context_sources_ranked_witness :
  exists w' context sources,
    get_context_for_query env_healthy "qqqq" world_two_docs
      = (w', inr (context, sources)) /\
    length sources = 2%nat /\ StronglySorted src_ge sources.
Proof.
  eexists _, _, _. split; [vm_compute; reflexivity|]. split; [reflexivity|].
  refine (proj1 (get_context_sources_ranked env_healthy "qqqq" world_two_docs
                   _ _ _ _)).
  vm_compute; reflexivity.
Defined.

(** X10: the context is the text of every retrieved chunk, in rank order,
    joined by the separator line; chunks of the same document are all kept
    (only the source list is deduplicated). *)
Theorem get_context_text E query w w' context sources :
  get_context_for_query E query w = (w', inr (context, sources)) ->
  exists results,
    search_similar E query None w = (w', inr results) /\
    context = str_join (NL +:+ NL +:+ "---" +:+ NL +:+ NL)
                (map (fun r : Chunk * Q => content r.1) results) /\
    (length sources <= length results)%nat.
Proof.
  intros (results & Hs & -> & ->)%get_context_inv.
  exists results. split; [done|]. split; [done|]. apply loop_sources_length.
Qed.

Lemma get_context_text_witness :
  exists w' sources,
    get_context_for_query env_healthy "qqqq" world_two_docs
      = (w', inr ("bbbb" +:+ SEPARATOR +:+ "aaa" +:+ SEPARATOR +:+ "cc", sources)).
Proof.
  destruct (get_context_for_query env_healthy "qqqq" world_two_docs)
    as [w' [e|[context sources]]] eqn:Hrun; [vm_compute in Hrun; discriminate|].
  destruct (get_context_text env_healthy "qqqq" world_two_docs _ _ _ Hrun)
    as (results & Hs & -> & _).
  vm_compute in Hs. injection Hs as _ <-. by exists w', sources.
Defined.

(** ** Text: characters and [str.strip] *)

Lemma append_cons c s1 s2 : String c s1 +:+ s2 = String c (s1 +:+ s2).
Proof. reflexivity. Qed.

Lemma append_nil_r s : s +:+ EmptyString = s.
Proof. induction s as [|c s IH]; [done|]. by rewrite append_cons, IH. Qed.

Lemma append_assoc s1 s2 s3 : (s1 +:+ s2) +:+ s3 = s1 +:+ (s2 +:+ s3).
Proof. induction s1 as [|c s1 IH]; [done|]. by rewrite !append_cons, IH. Qed.

Lemma str_concat_app l1 l2 :
  str_concat (l1 ++ l2) = str_concat l1 +:+ str_concat l2.
Proof.
  induction l1 as [|p l1 IH]; [done|]. simpl. by rewrite IH, append_assoc.
Qed.

Lemma chars_cons c rest :
  chars (String c rest) =
  match rest with
  | EmptyString => [String c EmptyString]
  | String c' _ =>
      if is_continuation c' then
        match chars rest with
        | ch :: more => String c ch :: more
        | [] => [String c EmptyString]
        end
      else String c EmptyString :: chars rest
  end.
Proof. by destruct rest. Qed.

Lemma chars_nonempty c rest : chars (String c rest) <> [].
Proof.
  rewrite chars_cons. destruct rest as [|c' r]; [done|].
  destruct (is_continuation c'); [|done]. by destruct (chars (String c' r)).
Qed.

(** Joining the characters of a text gives the text back. *)
Lemma str_concat_chars s : str_concat (chars s) = s.
Proof.
  induction s as [|c rest IH]; [done|].
  rewrite chars_cons. destruct rest as [|c' r]; [done|].
  destruct (is_continuation c').
  - destruct (chars (String c' r)) as [|ch more] eqn:Hc.
    + by apply chars_nonempty in Hc.
    + simpl in *. by rewrite append_cons, IH.
  - simpl in *. by rewrite IH.
Qed.

Lemma chars_char_list s : char_list (chars s).
Proof.
  induction s as [|c rest [IH1 IH2]]; [by split|].
  rewrite chars_cons. destruct rest as [|c' r]; [by split; repeat constructor|].
  destruct (is_continuation c') eqn:Hc'.
  - destruct (chars (String c' r)) as [|ch more] eqn:Hc;
      [by apply chars_nonempty in Hc|].
    apply Forall_cons in IH1 as [Hch Hmore]. simpl in IH2.
    split; [|done]. constructor; [|done].
    assert (Hhd : exists t, ch = String c' t).
    { rewrite chars_cons in Hc. destruct r as [|c'' r']; [by injection Hc as <-; eauto|].
      destruct (is_continuation c''); [|by injection Hc as <-; eauto].
      destruct (chars (String c'' r')); injection Hc as <- _; eauto. }
    destruct Hhd as [t ->]. simpl in *. rewrite Hc'. exact Hch.
  - split; [by constructor|]. cbn [tail].
    destruct (chars (String c' r)) as [|ch more] eqn:Hc; [done|].
    constructor; [|done].
    rewrite chars_cons in Hc. destruct r as [|c'' r']; [by injection Hc as <- _|].
    destruct (is_continuation c''); [|by injection Hc as <- _].
    destruct (chars (String c'' r')); by injection Hc as <- _.
Qed.

Lemma char_list_app l1 l2 : char_list (l1 ++ l2) -> char_list l1 /\ char_list l2.
Proof.
  intros [H1 H2]. apply Forall_app in H1 as [H11 H12].
  destruct l1 as [|a l1]; simpl in *.
  - split; by split.
  - apply Forall_app in H2 as [H21 H22]. split; [by split|].
    split; [done|]. destruct l2 as [|b l2]; [done|].
    by apply Forall_cons in H22 as [_ ?].
Qed.

Lemma char_list_cons ch l : char_list (ch :: l) -> char_list l.
Proof. intros H. by apply (char_list_app [ch] l) in H as [_ ?]. Qed.

Lemma starts_char_concat l :
  Forall starts_char l -> starts_char (str_concat l).
Proof.
  destruct l as [|ch l]; [done|]. intros [Hch Hl]%Forall_cons. simpl.
  destruct ch as [|c t]; [|done]. simpl.
  clear Hch. induction l as [|ch' l IH]; [done|].
  apply Forall_cons in Hl as [Hch' Hl]. simpl.
  destruct ch' as [|c' t']; [by apply IH|done].
Qed.

(** The first character of a text that starts with one. *)
Lemma chars_one c t rest :
  forallb is_continuation (String.list_ascii_of_string t) = true ->
  starts_char rest ->
  chars (String c (t +:+ rest)) = String c t :: chars rest.
Proof.
  revert c. induction t as [|b t IH]; intros c Ht Hrest.
  - change (EmptyString +:+ rest) with rest. rewrite chars_cons.
    destruct rest as [|c' r]; [done|]. simpl in Hrest. by rewrite Hrest.
  - simpl in Ht. apply andb_prop in Ht as [Hb Ht].
    rewrite append_cons, chars_cons, Hb, (IH b Ht Hrest). done.
Qed.

(** Cutting a joined list of characters gives the list back. *)
Lemma chars_str_concat l : char_list l -> chars (str_concat l) = l.
Proof.
  induction l as [|ch l IH]; [done|]. intros Hl.
  pose proof (char_list_cons _ _ Hl) as Hl'. destruct Hl as [H1 H2].
  apply Forall_cons in H1 as [Hch _]. simpl in H2.
  destruct ch as [|c t]; [done|]. simpl in Hch. cbn [str_concat].
  rewrite append_cons, chars_one; [by rewrite IH|done|].
  by apply starts_char_concat.
Qed.

Lemma chars_app s1 s2 :
  starts_char s2 -> chars (s1 +:+ s2) = chars s1 ++ chars s2.
Proof.
  intros H2. rewrite <- (str_concat_chars s1) at 1.
  rewrite <- (str_concat_chars s2) at 1. rewrite <- str_concat_app.
  apply chars_str_concat.
  pose proof (chars_char_list s1) as [H11 H12].
  pose proof (chars_char_list s2) as [H21 H22].
  split; [by apply Forall_app|].
  assert (Hall2 : Forall starts_char (chars s2)).
  { destruct s2 as [|c r]; [done|].
    destruct (chars (String c r)) as [|ch more] eqn:Hc; [done|].
    constructor; [|done].
    rewrite chars_cons in Hc. destruct r as [|c' r']; [by injection Hc as <- _|].
    destruct (is_continuation c'); [|by injection Hc as <- _].
    destruct (chars (String c' r')); by injection Hc as <- _. }
  destruct (chars s1) as [|a l1]; simpl in *.
  - by destruct (chars s2); [|apply Forall_cons in Hall2 as [_ ?]].
  - by apply Forall_app.
Qed.

Lemma str_concat_nil l : Forall one_char l -> str_concat l = EmptyString -> l = [].
Proof.
  destruct l as [|ch l]; [done|]. intros [Hch _]%Forall_cons.
  by destruct ch.
Qed.

(** *** White space at the two ends of a list of characters *)

Lemma lstrip_head l :
  match head (lstrip l) with
  | Some ch => is_space ch = false
  | None => forallb is_space l = true
  end.
Proof.
  induction l as [|ch l IH]; [done|]. simpl.
  destruct (is_space ch) eqn:Hch; simpl; [exact IH|exact Hch].
Qed.

Lemma lstrip_blank l : forallb is_space l = true -> lstrip l = [].
Proof.
  induction l as [|ch l IH]; [done|]. simpl.
  destruct (is_space ch); simpl; [exact IH|done].
Qed.

Lemma lstrip_char_list l : char_list l -> char_list (lstrip l).
Proof.
  induction l as [|ch l IH]; [done|]. intros Hl. simpl.
  destruct (is_space ch); [|done]. by apply IH, (char_list_cons ch).
Qed.

Lemma rstrip_nil l : rstrip l = [] <-> forallb is_space l = true.
Proof.
  induction l as [|ch l IH]; [done|]. simpl.
  destruct (rstrip l) as [|a r] eqn:Hr.
  - destruct (is_space ch); simpl; [|split; discriminate].
    split; intros _; [by apply IH|done].
  - split; [discriminate|]. intros [_ Hl]%andb_prop.
    apply IH in Hl. discriminate.
Qed.

Lemma rstrip_Forall (P : string -> Prop) l : Forall P l -> Forall P (rstrip l).
Proof.
  induction 1 as [|ch l Hch Hl IH]; [done|]. simpl.
  destruct (rstrip l) as [|a r]; [|by constructor].
  destruct (is_space ch); by repeat constructor.
Qed.

Lemma rstrip_char_list l : char_list l -> char_list (rstrip l).
Proof.
  intros [H1 H2]. split; [by apply rstrip_Forall|].
  destruct l as [|ch l]; [done|]. simpl in *.
  pose proof (rstrip_Forall _ _ H2) as H2'.
  destruct (rstrip l) as [|a r]; [|done].
  by destruct (is_space ch).
Qed.

Lemma rstrip_head a rest :
  is_space a = false -> head (rstrip (a :: rest)) = Some a.
Proof. intros Ha. simpl. destruct (rstrip rest); [by rewrite Ha|done]. Qed.

Lemma rstrip_last l ch : last (rstrip l) = Some ch -> is_space ch = false.
Proof.
  induction l as [|a l IH]; [done|]. simpl.
  destruct (rstrip l) as [|a' r] eqn:Hr.
  - destruct (is_space a) eqn:Ha; simpl; [done|]. by intros [= <-].
  - intros Hl. apply IH. exact Hl.
Qed.

Lemma rstrip_id l z : last l = Some z -> is_space z = false -> rstrip l = l.
Proof.
  induction l as [|a l IH]; [done|].
  destruct l as [|a' l'].
  - simpl. intros [= ->] ->. done.
  - intros Hl Hz. change (last (a' :: l') = Some z) in Hl.
    change (rstrip (a :: a' :: l'))
      with (match rstrip (a' :: l') with
            | [] => if is_space a then [] else [a]
            | r => a :: r
            end).
    by rewrite (IH Hl Hz).
Qed.

Lemma last_is_Some {A} (a : A) l : exists z, last (a :: l) = Some z.
Proof.
  revert a. induction l as [|b l IH]; intros a; [by exists a|].
  destruct (IH b) as [z Hz]. by exists z.
Qed.

(** The characters of a stripped text. *)
Lemma chars_strip s : chars (strip s) = rstrip (lstrip (chars s)).
Proof.
  apply chars_str_concat, rstrip_char_list, lstrip_char_list, chars_char_list.
Qed.

(** [strip] removes all the white space at both ends and nothing
    else: the result neither starts nor ends with a white-space character,
    it is empty exactly when the text is blank, a text without outer white
    space is returned as it is, and stripping twice is stripping once. *)
Lemma strip_spec s :
  (forall ch, first_char (strip s) = Some ch -> is_space ch = false) /\
  (forall ch, last_char (strip s) = Some ch -> is_space ch = false) /\
  (strip s = EmptyString <-> blank s = true) /\
  (forall a z, first_char s = Some a -> last_char s = Some z ->
     is_space a = false -> is_space z = false -> strip s = s) /\
  strip (strip s) = strip s.
Proof.
  unfold first_char, last_char, blank.
  assert (Hfirst : forall ch, head (chars (strip s)) = Some ch -> is_space ch = false).
  { intros ch. rewrite chars_strip. pose proof (lstrip_head (chars s)) as Hl.
    destruct (lstrip (chars s)) as [|a rest] eqn:Hs; [done|].
    simpl in Hl. rewrite (rstrip_head a rest Hl). by intros [= <-]. }
  assert (Hlast : forall ch, last (chars (strip s)) = Some ch -> is_space ch = false).
  { intros ch. rewrite chars_strip. apply rstrip_last. }
  assert (Hid : forall t a z, head (chars t) = Some a -> last (chars t) = Some z ->
            is_space a = false -> is_space z = false -> strip t = t).
  { intros t a z Ha Hz Hsa Hsz. unfold strip.
    destruct (chars t) as [|a' rest] eqn:Ht; [done|]. injection Ha as ->.
    assert (Hl : lstrip (a :: rest) = a :: rest) by (simpl; by rewrite Hsa).
    rewrite Hl, (rstrip_id _ z Hz Hsz), <- Ht. apply str_concat_chars. }
  split; [done|]. split; [done|]. split; [|split; [apply Hid|]].
  - split.
    + intros Hs. pose proof (chars_strip s) as Hc. rewrite Hs in Hc.
      symmetry in Hc. apply rstrip_nil in Hc.
      pose proof (lstrip_head (chars s)) as Hl.
      destruct (lstrip (chars s)) as [|a rest]; [done|].
      simpl in Hl, Hc. by rewrite Hl in Hc.
    + intros Hb. unfold strip. by rewrite lstrip_blank.
  - destruct (chars (strip s)) as [|a rest] eqn:Hs.
    + destruct (strip s); [done|]. by apply chars_nonempty in Hs.
    + destruct (last_is_Some a rest) as [z Hz].
      apply (Hid _ a z); rewrite ?Hs; [done|done| |].
      * by apply Hfirst.
      * by apply Hlast.
Qed.

(** A reply between no-break spaces (U+00A0), and a text of white space
    only. *)
Lemma strip_examples :
  strip (NBSP +:+ " It is 42." +:+ NL +:+ NBSP) = "It is 42." /\
  strip ("  " +:+ NBSP +:+ NL) = EmptyString /\
  py_len (NBSP +:+ "a") = 2%nat.
Proof. split; [|split]; vm_compute; reflexivity. Qed.

(** ** The response cache *)

Lemma cache_key_inj (E : Env) q1 q2 :
  _get_cache_key E q1 = _get_cache_key E q2 <->
  md5_hexdigest E q1 = md5_hexdigest E q2.
Proof.
  unfold _get_cache_key. split; [|intros H; by f_equal].
  apply String.app_inj.
Qed.

(** X11: cache faults never escalate. In every world, a cache read returns
    (possibly nothing) without changing anything, and a cache write returns
    normally and can only change the Redis store. Without a client, or with
    an unreachable Redis, the read is a miss and the write does nothing. *)
Theorem cache_faults_are_swallowed E query resp w :
  (exists found, _get_cached_response E query w = (w, inr found)) /\
  (exists w', _cache_response E query resp w = (w', inr tt) /\
     rag w' = rag w /\ clock w' = clock w /\ calls w' = calls w) /\
  (redis_client w = None \/
   (exists r, redis_client w = Some r /\ reachable r = false) ->
   _get_cached_response E query w = (w, inr None) /\
   _cache_response E query resp w = (w, inr tt)).
Proof.
  rewrite _get_cached_response_run, _cache_response_run.
  split; [by eexists|]. split.
  - eexists. split; [done|]. unfold cache_store.
    destruct (redis_client w) as [r|]; [|done].
    by destruct (redis_setex _ _ _ _ _).
  - unfold cache_lookup, cache_store, redis_get, redis_setex.
    intros [->|(r & -> & ->)]; done.
Qed.

Lemma cache_faults_are_swallowed_witness :
  let w := {| rag := rag_one_doc;
              redis_client := Some {| reachable := false; store := ∅ |};
              clock := 0; calls := [] |} in
  _get_cached_response env_healthy "what?" w = (w, inr None) /\
  _cache_response env_healthy "what?"
    {| response := "It is 42."; sources := [] |} w = (w, inr tt).
Proof.
  intros w.
  apply (proj2 (proj2 (cache_faults_are_swallowed env_healthy "what?"
                         {| response := "It is 42."; sources := [] |} w))).
  right. eexists. split; reflexivity.
Defined.

(** X12: write, then read. After [_cache_response] through a reachable
    client at time [t0], [_get_cached_response] for the same query returns
    exactly the stored response at every time before [t0 + CACHE_TTL], and
    nothing from then on; a second write for the same query replaces the
    first. *)
Theorem cache_round_trip_until_expiry E query resp w r t :
  redis_client w = Some r -> reachable r = true ->
  (_get_cached_response E query
     (at_time (_cache_response E query resp w).1 t)).2
  = inr (if t <? clock w + CACHE_TTL then Some resp else None).
Proof.
  intros Hr Hup. rewrite _cache_response_run, _get_cached_response_run. simpl.
  f_equal. unfold cache_lookup, cache_store, at_time.
  rewrite Hr. unfold redis_setex. rewrite Hup. simpl.
  unfold redis_get. simpl. by rewrite lookup_insert_eq.
Qed.

Lemma cache_round_trip_until_expiry_witness :
  let resp := {| response := "It is 42."; sources := [] |} in
  let w1 := (_cache_response env_healthy "what?" resp world_one_doc).1 in
  (_get_cached_response env_healthy "what?" (at_time w1 3599)).2 = inr (Some resp) /\
  (_get_cached_response env_healthy "what?" (at_time w1 3600)).2 = inr None.
Proof.
  intros resp w1. split.
  - apply (cache_round_trip_until_expiry env_healthy "what?" resp world_one_doc
             redis_empty 3599); reflexivity.
  - apply (cache_round_trip_until_expiry env_healthy "what?" resp world_one_doc
             redis_empty 3600); reflexivity.
Defined.

(** X13: the cache is keyed by the MD5 digest of the query and by nothing
    else. A write for one query leaves what is read for every query with
    another digest as it was; a query with the same digest reads the
    response written for the other one. *)
Theorem cache_keyed_by_digest E q1 q2 resp w :
  (md5_hexdigest E q1 <> md5_hexdigest E q2 ->
   (_get_cached_response E q2 (_cache_response E q1 resp w).1).2
   = (_get_cached_response E q2 w).2) /\
  (md5_hexdigest E q1 = md5_hexdigest E q2 ->
   forall r, redis_client w = Some r -> reachable r = true ->
   (_get_cached_response E q2 (_cache_response E q1 resp w).1).2
   = inr (Some resp)).
Proof.
  rewrite _cache_response_run, !_get_cached_response_run. simpl. split.
  - intros Hne. f_equal. unfold cache_lookup, cache_store.
    destruct (redis_client w) as [r|] eqn:Hr; [|by rewrite Hr].
    unfold redis_setex. destruct (reachable r) eqn:Hup; [|by rewrite Hr].
    simpl. unfold redis_get. simpl. rewrite Hup.
    rewrite lookup_insert_ne; [done|]. intros Hk. by apply cache_key_inj in Hk.
  - intros Heq r Hr Hup. f_equal. unfold cache_lookup, cache_store.
    rewrite Hr. unfold redis_setex. rewrite Hup. simpl.
    unfold redis_get. simpl.
    rewrite (proj2 (cache_key_inj E q1 q2) Heq), lookup_insert_eq.
    unfold CACHE_TTL. replace (clock w <? clock w + 3600) with true by lia. done.
Qed.

Lemma cache_keyed_by_digest_witness :
  let resp := {| response := "It is 42."; sources := [] |} in
  (_get_cached_response env_healthy "why?"
     (_cache_response env_healthy "what?" resp world_one_doc).1).2 = inr None.
Proof.
  intros resp.
  rewrite (proj1 (cache_keyed_by_digest env_healthy "what?" "why?" resp
                    world_one_doc)); [reflexivity|discriminate].
Defined.

(** ** [query], continued *)

Lemma cache_store_frame E query resp w :
  rag (cache_store E query resp w) = rag w /\
  clock (cache_store E query resp w) = clock w /\
  calls (cache_store E query resp w) = calls w.
Proof.
  unfold cache_store. destruct (redis_client w) as [r|]; [|done].
  by destruct (redis_setex _ _ _ _ _).
Qed.

Lemma get_context_effects E query w w' r :
  get_context_for_query E query w = (w', r) ->
  rag w' = rag w /\ redis_client w' = redis_client w /\ clock w' = clock w /\
  calls w' = if (ntotal (index (rag w)) =? 0)%nat then calls w
             else calls w ++ [PostEmbeddings query].
Proof.
  unfold get_context_for_query. unfold bind at 1.
  destruct (search_similar E query None w) as [w1 [e|results]] eqn:Hs;
    apply search_similar_effects in Hs.
  - by intros [= <- _].
  - destruct results; unfold ret; by intros [= <- _].
Qed.

(** X14: [query] never changes the index, the chunk store or the clock, and
    the only exceptions that escape it are those of retrieval: when [query]
    raises [e], the cache read had missed and [get_context_for_query]
    raised [e]. Failures of generation and of the cache never escape. *)
Theorem query_read_only E user_query w w' r :
  query E user_query w = (w', r) ->
  rag w' = rag w /\ clock w' = clock w /\
  (forall e, r = inl e ->
     (_get_cached_response E user_query w).2 = inr None /\
     get_context_for_query E user_query w = (w', inl e)).
Proof.
  rewrite query_run, _get_cached_response_run. simpl.
  destruct (cache_lookup E w user_query) as [c|].
  { intros [= <- <-]. split; [done|]. split; [done|]. intros e0 He0. discriminate. }
  destruct (get_context_for_query E user_query w)
    as [w1 [e|[context srcs]]] eqn:Hctx;
    pose proof (get_context_frame E _ _ _ _ Hctx) as (Hrag & _ & Hclock).
  { intros [= <- <-]. split; [done|]. split; [done|]. by intros e' [= ->]. }
  destruct (decide (context = EmptyString)).
  { intros [= <- <-]. split; [done|]. split; [done|]. intros e0 He0. discriminate. }
  destruct (post_generate E (_build_prompt user_query context) w1)
    as [w2 [e|answer]] eqn:Hgen;
    apply post_generate_frame in Hgen as (Hrag2 & _ & Hclock2 & _);
    intros [= <- <-].
  - destruct (cache_store_frame E user_query
                {| response := error_answer e; sources := [] |} w2) as (-> & -> & _).
    split; [congruence|]. split; [congruence|]. intros e' He. discriminate.
  - destruct (cache_store_frame E user_query
                {| response := answer; sources := srcs |} w2) as (-> & -> & _).
    split; [congruence|]. split; [congruence|]. intros e' He. discriminate.
Qed.

Lemma query_read_only_witness :
  rag (query env_generate_down "what?" world_one_doc).1 = rag world_one_doc.
Proof.
  apply (proj1 (query_read_only env_generate_down "what?" world_one_doc _ _
                  (surjective_pairing _))).
Defined.

(** X15: the backend calls of [query]. A cache hit returns the stored
    answer and sources with [cache_hit = True] and changes nothing, so no
    backend is called. After a cache miss [query] calls retrieval, which
    sends one embedding request for the query text unless the index is
    empty; when retrieval returns a context that is not empty, [query] then
    sends exactly one generation request, whose prompt is built from the
    query and that context; when retrieval raises or returns the empty
    context, it sends nothing more. *)
Theorem query_backend_calls E user_query w w' r :
  query E user_query w = (w', r) ->
  (forall c, (_get_cached_response E user_query w).2 = inr (Some c) ->
     w' = w /\ r = inr (response c, sources c, true)) /\
  ((_get_cached_response E user_query w).2 = inr None ->
   exists w1 retrieved,
     get_context_for_query E user_query w = (w1, retrieved) /\
     calls w1 = (if (ntotal (index (rag w)) =? 0)%nat then calls w
                 else calls w ++ [PostEmbeddings user_query]) /\
     match retrieved with
     | inl _ => calls w' = calls w1
     | inr (context, srcs) =>
         if decide (context = EmptyString) then calls w' = calls w1
         else calls w' =
                calls w1 ++ [PostGenerate (_build_prompt user_query context)]
     end).
Proof.
  rewrite query_run, _get_cached_response_run. simpl.
  destruct (cache_lookup E w user_query) as [c|].
  { intros [= <- <-]. split; [|done]. by intros c' [= <-]. }
  intros Hq. split; [done|]. intros _.
  destruct (get_context_for_query E user_query w)
    as [w1 [e|[context srcs]]] eqn:Hctx;
    pose proof (get_context_effects E _ _ _ _ Hctx) as (_ & _ & _ & Hcalls);
    exists w1; eexists; (split; [reflexivity|]); (split; [exact Hcalls|]).
  { by injection Hq as <- _. }
  destruct (decide (context = EmptyString)) as [|Hne]; [by injection Hq as <- _|].
  destruct (post_generate E (_build_prompt user_query context) w1)
    as [w2 [e|answer]] eqn:Hgen;
    apply post_generate_frame in Hgen as (_ & _ & _ & Hcalls2);
    injection Hq as <- _.
  - by destruct (cache_store_frame E user_query
                   {| response := error_answer e; sources := [] |} w2)
      as (_ & _ & ->).
  - by destruct (cache_store_frame E user_query
                   {| response := answer; sources := srcs |} w2) as (_ & _ & ->).
Qed.

Lemma query_backend_calls_witness :
  (let w := world_empty_index_stale_cache in
   (query env_generate_down "what?" w).1 = w /\
   (query env_generate_down "what?" w).2 = inr ("It is 42.", [], true)) /\
  calls (query env_healthy "what?" world_one_doc).1 =
    [PostEmbeddings "what?";
     PostGenerate (_build_prompt "what?" ("aaaa" +:+ SEPARATOR +:+ "bb"))].
Proof.
  split.
  - intros w.
    destruct (proj1 (query_backend_calls env_generate_down "what?" w _ _
                       (surjective_pairing _))
                {| response := "It is 42."; sources := [] |} eq_refl) as [H1 H2].
    split; [exact H1|exact H2].
  - destruct (proj2 (query_backend_calls env_healthy "what?" world_one_doc _ _
                       (surjective_pairing _)) eq_refl)
      as (w1 & retrieved & Hctx & Hcalls & Hgen).
    vm_compute in Hctx. injection Hctx as <- <-.
    exact Hgen.
Defined.

(** X16: without a usable cache there is never a cache hit. When the
    service has no Redis client, or Redis is unreachable, every answer of
    [query] has [cache_hit = False] and the client is left as it was. *)
Theorem query_without_cache E user_query w w' answer srcs hit :
  redis_client w = None \/
  (exists r, redis_client w = Some r /\ reachable r = false) ->
  query E user_query w = (w', inr (answer, srcs, hit)) ->
  hit = false /\ redis_client w' = redis_client w.
Proof.
  intros Hoff. rewrite query_run.
  assert (Hmiss : cache_lookup E w user_query = None).
  { unfold cache_lookup, redis_get. by destruct Hoff as [->|(r & -> & ->)]. }
  assert (Hstore : forall resp w2, redis_client w2 = redis_client w ->
            cache_store E user_query resp w2 = w2).
  { intros resp w2 Hw2. unfold cache_store, redis_setex. rewrite Hw2.
    by destruct Hoff as [->|(r & -> & ->)]. }
  rewrite Hmiss.
  destruct (get_context_for_query E user_query w)
    as [w1 [e|[context ss]]] eqn:Hctx; [done|].
  apply get_context_frame in Hctx as (_ & Hr1 & _).
  destruct (decide (context = EmptyString)); [by intros [= <- _ _ <-]|].
  destruct (post_generate E (_build_prompt user_query context) w1)
    as [w2 [e|text]] eqn:Hgen;
    apply post_generate_frame in Hgen as (_ & Hr2 & _ & _);
    rewrite Hstore by congruence; intros [= <- _ _ <-]; split; congruence.
Qed.

Lemma query_without_cache_witness :
  let w := {| rag := rag_one_doc; redis_client := None; clock := 0; calls := [] |} in
  exists w' answer srcs,
    query env_healthy "what?" w = (w', inr (answer, srcs, false)) /\
    redis_client w' = None.
Proof.
  intros w.
  destruct (query env_healthy "what?" w) as [w' [e|[[answer srcs] hit]]] eqn:Hq;
    [vm_compute in Hq; discriminate|].
  destruct (query_without_cache env_healthy "what?" w w' answer srcs hit
              (or_introl eq_refl) Hq) as [-> Hr].
  by exists w', answer, srcs.
Defined.

(** X17: a successful generation. When the cache read misses, retrieval
    finds a non-empty context and the generation backend answers with
    [text], [query] returns [text] stripped of its outer white space, in
    the sense of [str.strip] (so the answer neither starts nor ends with a
    white-space character, be it an ASCII one or one like the no-break
    space), together with the sources of retrieval and
    [cache_hit = False]. *)
Theorem query_generation_success E user_query w w1 context srcs text :
  (_get_cached_response E user_query w).2 = inr None ->
  get_context_for_query E user_query w = (w1, inr (context, srcs)) ->
  context <> EmptyString ->
  generate_api E (calls w1) (_build_prompt user_query context)
    = HttpReply None (Some text) ->
  (query E user_query w).2 = inr (strip text, srcs, false) /\
  chars (strip text) = rstrip (lstrip (chars text)) /\
  (forall ch, first_char (strip text) = Some ch -> is_space ch = false) /\
  (forall ch, last_char (strip text) = Some ch -> is_space ch = false).
Proof.
  rewrite _get_cached_response_run. simpl. intros [= Hmiss] Hctx Hne Hgen.
  split; [|split; [apply chars_strip|split; apply strip_spec]].
  rewrite query_run, Hmiss, Hctx. destruct (decide _) as [|_]; [done|].
  unfold post_generate. unfold_m. simpl. by rewrite Hgen.
Qed.

Lemma query_generation_success_witness :
  (query env_healthy "what?" world_one_doc).2
    = inr ("It is 42.",
           [{| src_document_id := 7; src_filename := "a.txt";
               relevance_score := (1 # 2)%Q |}], false) /\
  (query env_padded_reply "what?" world_one_doc).2
    = inr ("It is 42.",
           [{| src_document_id := 7; src_filename := "a.txt";
               relevance_score := (1 # 2)%Q |}], false).
Proof.
  split.
  - refine (proj1 (query_generation_success env_healthy "what?" world_one_doc
                     _ _ _ " It is 42. " eq_refl _ _ _)).
    + vm_compute; reflexivity.
    + discriminate.
    + reflexivity.
  - refine (proj1 (query_generation_success env_padded_reply "what?" world_one_doc
                     _ _ _ (NBSP +:+ " It is 42." +:+ NL +:+ NBSP) eq_refl _ _ _)).
    + vm_compute; reflexivity.
    + discriminate.
    + reflexivity.
Defined.

(** X18: an empty context counts as "no documents". Whenever the cache read
    misses and retrieval returns the empty string as context (no result at
    all, or every row of the index lying beyond the chunk store), [query]
    returns the canned answer with no sources and [cache_hit = False],
    sends no generation request and writes nothing to the cache. *)
Theorem query_empty_context E user_query w w1 srcs :
  (_get_cached_response E user_query w).2 = inr None ->
  get_context_for_query E user_query w = (w1, inr (EmptyString, srcs)) ->
  query E user_query w = (w1, inr (NO_DOCUMENTS, [], false)) /\
  redis_client w1 = redis_client w /\
  Forall (fun ev => forall prompt, ev <> PostGenerate prompt)
         (drop (length (calls w)) (calls w1)).
Proof.
  rewrite _get_cached_response_run. simpl. intros [= Hmiss] Hctx.
  pose proof (get_context_effects E _ _ _ _ Hctx) as (_ & Hr & _ & Hcalls).
  split; [by rewrite query_run, Hmiss, Hctx|]. split; [done|].
  rewrite Hcalls. destruct (_ =? _)%nat.
  - rewrite drop_all. constructor.
  - rewrite drop_app_length. constructor; [done|constructor].
Qed.

Lemma query_empty_context_witness :
  let w := {| rag := {| index := index rag_one_doc; documents := [] |};
              redis_client := Some redis_empty; clock := 0; calls := [] |} in
  (query env_healthy "what?" w).2 = inr (NO_DOCUMENTS, [], false) /\
  calls (query env_healthy "what?" w).1 = [PostEmbeddings "what?"].
Proof.
  intros w.
  destruct (query_empty_context env_healthy "what?" w
              (get_context_for_query env_healthy "what?" w).1 []
              eq_refl ltac:(vm_compute; reflexivity)) as (Hq & _ & _).
  rewrite Hq. split; [reflexivity|]. vm_compute; reflexivity.
Defined.

(** ** Persistence *)

(** X19: save, then load. After a run of [_save_index] in which both
    writes succeed, [_load_index] restores exactly the saved index and
    chunk store, whatever was on disk before and whatever the service held
    when it loads; nothing else of the world changes. *)
Theorem save_then_load_restores r disk w :
  exists w',
    _load_index (save_index_files Saved r disk) w = (w', inr tt) /\
    rag w' = r /\
    redis_client w' = redis_client w /\ clock w' = clock w /\ calls w' = calls w.
Proof.
  eexists. split; [reflexivity|]. simpl. by destruct r as [ix docs].
Qed.

(** X20: loading never fails and never mixes a readable file with an
    unreadable one. [_load_index] always returns; when one of the two files
    is absent or cannot be read, the service starts with the empty index of
    dimension 768 and the empty chunk store; when both can be read, it
    holds exactly the stored index and the stored records, with no check
    that the two belong together. *)
Theorem load_index_outcomes disk w :
  exists w',
    _load_index disk w = (w', inr tt) /\
    redis_client w' = redis_client w /\ clock w' = clock w /\ calls w' = calls w /\
    match faiss_index_bin disk, faiss_documents_pkl disk with
    | Stored ix, Stored docs => rag w' = {| index := ix; documents := docs |}
    | _, _ => rag w' = rag_fresh /\ aligned (rag w')
    end.
Proof.
  unfold _load_index.
  destruct (faiss_index_bin disk) as [| |ix], (faiss_documents_pkl disk) as [| |docs];
    eexists; (split; [reflexivity|]); simpl; repeat split.
Qed.

(** X21: an interrupted save can break the alignment across a restart.
    If [_save_index] writes the index file and then fails on the records
    file, leaving the older records file in place, the next [_load_index]
    pairs the new index with the old records. *)
Theorem interrupted_save_then_load r old_docs disk w :
  faiss_documents_pkl disk = Stored old_docs ->
  exists w',
    _load_index
      (save_index_files (DocumentsWriteFails (faiss_documents_pkl disk)) r disk) w
      = (w', inr tt) /\
    rag w' = {| index := index r; documents := old_docs |} /\
    (aligned (rag w') <-> ntotal (index r) = length old_docs).
Proof.
  intros Hold. rewrite Hold. eexists. split; [reflexivity|]. simpl. done.
Qed.

Lemma interrupted_save_then_load_witness :
  let disk := save_index_files Saved rag_fresh
                {| faiss_index_bin := Missing; faiss_documents_pkl := Missing |} in
  exists w',
    _load_index
      (save_index_files (DocumentsWriteFails (faiss_documents_pkl disk))
         rag_one_doc disk) world_fresh = (w', inr tt) /\
    ntotal (index (rag w')) = 2%nat /\ documents (rag w') = [].
Proof.
  intros disk.
  destruct (interrupted_save_then_load rag_one_doc [] disk world_fresh
              eq_refl) as (w' & Hload & Hrag & _).
  exists w'. split; [exact Hload|]. by rewrite Hrag.
Defined.

(** ** Text extraction *)

Lemma strip_nonempty_not_blank s :
  strip s <> EmptyString <-> blank s = false.
Proof.
  destruct (strip_spec s) as (_ & _ & Hb & _).
  destruct (blank s); split; try done.
  - intros H. destruct H. by apply Hb.
  - intros _ H. by apply Hb in H.
Qed.

Lemma try_encodings_ok P encodings content text :
  try_encodings P encodings content = inr text ->
  blank text = false /\
  exists before encoding after,
    encodings = before ++ encoding :: after /\
    decode P encoding content = Some text /\
    Forall (fun enc => match decode P enc content with
                       | Some t => blank t = true
                       | None => True
                       end) before.
Proof.
  induction encodings as [|enc rest IH]; simpl; [done|].
  destruct (decode P enc content) as [t|] eqn:Hd.
  - destruct (strip t) as [|c s] eqn:Hs.
    + intros (Hb & before & encoding & after & -> & Hdec & Hall)%IH.
      split; [done|]. exists (enc :: before), encoding, after.
      split; [done|]. split; [done|]. constructor; [|done].
      rewrite Hd. destruct (strip_spec t) as (_ & _ & Hbl & _). by apply Hbl.
    + intros [= <-]. split.
      * apply strip_nonempty_not_blank. by rewrite Hs.
      * exists [], enc, rest. by repeat split.
  - intros (Hb & before & encoding & after & -> & Hdec & Hall)%IH.
    split; [done|]. exists (enc :: before), encoding, after.
    split; [done|]. split; [done|]. constructor; [by rewrite Hd|done].
Qed.

(** X22: [extract_from_txt] returns the text of the first encoding, in the
    order UTF-8, Latin-1, CP-1252, under which the bytes decode to a text
    that is not blank; every encoding tried before it failed to decode or
    gave a blank text. The returned text is never blank. Blank is meant as
    [str.strip] sees it: the bytes of a no-break space alone are blank as
    UTF-8, and the Latin-1 reading is returned. *)
Theorem extract_from_txt_first_encoding P content text :
  extract_from_txt P content = inr text ->
  blank text = false /\
  exists before encoding after,
    ["utf-8"; "latin-1"; "cp1252"] = before ++ encoding :: after /\
    decode P encoding content = Some text /\
    Forall (fun enc => match decode P enc content with
                       | Some t => blank t = true
                       | None => True
                       end) before.
Proof. apply try_encodings_ok. Qed.

Lemma extract_from_txt_first_encoding_witness :
  (extract_from_txt parsers_demo sixty = inr sixty /\ blank sixty = false) /\
  (extract_from_txt parsers_latin1 NBSP = inr (decode_latin1 NBSP) /\
   blank NBSP = true /\ blank (decode_latin1 NBSP) = false).
Proof.
  split.
  - split; [reflexivity|].
    apply (proj1 (extract_from_txt_first_encoding parsers_demo sixty sixty eq_refl)).
  - split; [reflexivity|]. split; [reflexivity|].
    apply (proj1 (extract_from_txt_first_encoding parsers_latin1 NBSP
                    (decode_latin1 NBSP) eq_refl)).
Defined.

Lemma extract_from_pdf_ok P content text :
  extract_from_pdf P content = inr text ->
  blank text = false /\
  exists pages, pdf_pages P content = inr pages /\
    text = str_join (NL +:+ NL)
             (filter (fun t : string => t <> EmptyString) pages).
Proof.
  unfold extract_from_pdf. destruct (pdf_pages P content) as [e|pages]; [done|].
  destruct (strip _) as [|c s] eqn:Hs; [done|]. intros [= <-]. split.
  - apply strip_nonempty_not_blank. by rewrite Hs.
  - by exists pages.
Qed.

(** X23: [extract_text_from_file] chooses the parser by the extension of
    the lower-cased filename: a name ending in [.pdf] goes to
    [extract_from_pdf], any other name ending in [.txt] to
    [extract_from_txt], and what the parser returns is returned. An error
    of the parser becomes status 500 with the message of the error; a name
    with neither extension gets status 400, and nothing else does. A
    returned text is never blank; for a PDF it is the texts of the pages
    that have some, joined by blank lines. *)
Theorem extract_text_from_file_outcomes P file :
  let name := lower (upload_filename file) in
  let parsed :=
    if endswith name ".pdf" then Some (extract_from_pdf P (upload_bytes file))
    else if endswith name ".txt" then Some (extract_from_txt P (upload_bytes file))
    else None in
  (forall text,
     extract_text_from_file P file = inr text <-> parsed = Some (inr text)) /\
  (forall err,
     extract_text_from_file P file = inl err ->
     (status_code err = 400 <-> parsed = None) /\
     (status_code err = 500 <->
      exists e, parsed = Some (inl e) /\
                detail err = "Error extracting text from file: " +:+ str_exn e) /\
     (status_code err = 400 \/ status_code err = 500)) /\
  (parsed = None ->
   extract_text_from_file P file =
     inl {| status_code := 400;
            detail := "Unsupported file format. Only PDF and TXT are allowed." |}) /\
  (forall text,
     extract_text_from_file P file = inr text ->
     blank text = false /\
     (endswith name ".pdf" = true ->
      exists pages, pdf_pages P (upload_bytes file) = inr pages /\
        text = str_join (NL +:+ NL)
                 (filter (fun t : string => t <> EmptyString) pages))).
Proof.
  cbv zeta. unfold extract_text_from_file.
  destruct (endswith (lower (upload_filename file)) ".pdf") eqn:Hpdf;
    [|destruct (endswith (lower (upload_filename file)) ".txt") eqn:Htxt].
  - destruct (extract_from_pdf P (upload_bytes file)) as [e|text] eqn:Hx.
    + split; [intros t; split; [done|by intros [= ?]]|].
      split; [|split; [done|done]].
      intros err [= <-]. simpl.
      split; [split; [done|done]|]. split; [|by right].
      split; [|done]. intros _. by exists e.
    + split; [intros t; split; [by intros [= ->]|by intros [= ->]]|].
      split; [done|]. split; [done|].
      intros t [= <-]. apply extract_from_pdf_ok in Hx as (Hb & pages & Hp & ->).
      split; [done|]. intros _. by exists pages.
  - destruct (extract_from_txt P (upload_bytes file)) as [e|text] eqn:Hx.
    + split; [intros t; split; [done|by intros [= ?]]|].
      split; [|split; [done|done]].
      intros err [= <-]. simpl.
      split; [split; [done|done]|]. split; [|by right].
      split; [|done]. intros _. by exists e.
    + split; [intros t; split; [by intros [= ->]|by intros [= ->]]|].
      split; [done|]. split; [done|].
      intros t [= <-]. apply try_encodings_ok in Hx as (Hb & _).
      split; [done|]. done.
  - split; [intros t; split; done|].
    split; [|split; [done|done]].
    intros err [= <-]. simpl.
    split; [split; done|]. split; [|by left].
    split; [done|]. by intros (e & He & _).
Qed.

Lemma extract_text_from_file_outcomes_witness :
  extract_text_from_file parsers_demo file_notes = inr sixty /\
  extract_text_from_file parsers_demo
    {| upload_filename := "photo.png"; upload_size := 2; upload_bytes := "hi" |}
    = inl {| status_code := 400;
             detail := "Unsupported file format. Only PDF and TXT are allowed." |}.
Proof.
  split.
  - apply (proj1 (extract_text_from_file_outcomes parsers_demo file_notes)).
    reflexivity.
  - apply (proj1 (proj2 (proj2 (extract_text_from_file_outcomes parsers_demo _)))).
    reflexivity.
Defined.

(** ** Document upload *)

Lemma upload_extension_parsed P file :
  existsb (endswith (lower (upload_filename file))) ALLOWED_EXTENSIONS = true ->
  forall err, extract_text_from_file P file = inl err -> status_code err = 500.
Proof.
  unfold ALLOWED_EXTENSIONS. simpl. rewrite orb_false_r.
  intros Hext err. unfold extract_text_from_file.
  destruct (endswith _ ".pdf").
  - destruct (extract_from_pdf _ _); [|done]. by intros [= <-].
  - simpl in Hext. rewrite Hext.
    destruct (extract_from_txt _ _); [|done]. by intros [= <-].
Qed.

(** X24: what [upload_document] refuses, it refuses without a trace. A file
    larger than [MAX_FILE_SIZE] gets status 413 whatever its name; a name
    that ends neither in [.pdf] nor in [.txt] (in any letter case) gets 400;
    a failed extraction gets 500; a text of fewer than 50 characters after
    stripping gets 400. In all these cases no row is stored, no id is used
    up and the retrieval service is not called. The "unsupported format"
    error of the extractor is never reached from here. *)
Theorem upload_document_rejections E P file user_id a :
  (MAX_FILE_SIZE < upload_size file ->
   exists err, upload_document E P file user_id a = (a, inl err) /\
               status_code err = 413) /\
  (upload_size file <= MAX_FILE_SIZE ->
   endswith (lower (upload_filename file)) ".pdf" = false ->
   endswith (lower (upload_filename file)) ".txt" = false ->
   exists err, upload_document E P file user_id a = (a, inl err) /\
               status_code err = 400 /\
               detail err = "Invalid file type. Allowed: .pdf, .txt") /\
  (forall err,
     upload_size file <= MAX_FILE_SIZE ->
     existsb (endswith (lower (upload_filename file))) ALLOWED_EXTENSIONS = true ->
     extract_text_from_file P file = inl err ->
     upload_document E P file user_id a = (a, inl err) /\ status_code err = 500) /\
  (forall content,
     upload_size file <= MAX_FILE_SIZE ->
     extract_text_from_file P file = inr content ->
     (py_len (strip content) < 50)%nat ->
     exists err, upload_document E P file user_id a = (a, inl err) /\
                 status_code err = 400).
Proof.
  unfold upload_document. split; [|split; [|split]].
  - intros Hbig. replace (MAX_FILE_SIZE <? upload_size file) with true by lia.
    by eexists.
  - intros Hsize Hpdf Htxt.
    replace (MAX_FILE_SIZE <? upload_size file) with false by lia.
    unfold ALLOWED_EXTENSIONS. simpl. rewrite Hpdf, Htxt. simpl. by eexists.
  - intros err Hsize Hext Hx.
    replace (MAX_FILE_SIZE <? upload_size file) with false by lia.
    rewrite Hext, Hx. simpl. split; [done|].
    by apply (upload_extension_parsed P file).
  - intros content Hsize Hx Hshort.
    replace (MAX_FILE_SIZE <? upload_size file) with false by lia.
    destruct (negb _) eqn:Hext.
    { exfalso. apply negb_true_iff in Hext. unfold ALLOWED_EXTENSIONS in Hext.
      simpl in Hext. rewrite orb_false_r in Hext.
      apply orb_false_elim in Hext as [Hpdf Htxt].
      unfold extract_text_from_file in Hx. by rewrite Hpdf, Htxt in Hx. }
    rewrite Hx. replace (_ <? 50)%nat with true by (symmetry; apply Nat.ltb_lt; lia).
    by eexists.
Qed.

Lemma upload_document_rejections_witness :
  (exists err,
     upload_document env_healthy parsers_demo
       {| upload_filename := "photo.png"; upload_size := 11000000;
          upload_bytes := sixty |} 1 app_fresh = (app_fresh, inl err) /\
     status_code err = 413) /\
  (exists err,
     upload_document env_healthy parsers_demo
       {| upload_filename := "short.txt"; upload_size := 2;
          upload_bytes := "hi" |} 1 app_fresh = (app_fresh, inl err) /\
     status_code err = 400) /\
  (String.length thirty_accents = 60%nat /\
   exists err,
     upload_document env_healthy parsers_demo
       {| upload_filename := "accents.txt"; upload_size := 60;
          upload_bytes := thirty_accents |} 1 app_fresh = (app_fresh, inl err) /\
     status_code err = 400).
Proof.
  split; [|split].
  - apply (proj1 (upload_document_rejections env_healthy parsers_demo _ 1 app_fresh)).
    reflexivity.
  - apply (proj2 (proj2 (proj2 (upload_document_rejections env_healthy
                                  parsers_demo _ 1 app_fresh))) "hi").
    + discriminate.
    + reflexivity.
    + vm_compute. lia.
  - split; [reflexivity|].
    apply (proj2 (proj2 (proj2 (upload_document_rejections env_healthy
                                  parsers_demo _ 1 app_fresh))) thirty_accents).
    + discriminate.
    + reflexivity.
    + vm_compute. lia.
Defined.

Lemma extract_ok_extension P file content :
  extract_text_from_file P file = inr content ->
  existsb (endswith (lower (upload_filename file))) ALLOWED_EXTENSIONS = true.
Proof.
  unfold extract_text_from_file, ALLOWED_EXTENSIONS. simpl.
  destruct (endswith _ ".pdf"); [done|]. destruct (endswith _ ".txt"); done.
Qed.

Lemma set_embedding_id_fresh id ref rows :
  Forall (fun row => doc_id row < id) rows ->
  set_embedding_id id ref rows = rows.
Proof.
  induction 1 as [|row rows Hrow _ IH]; [done|]. simpl.
  replace (doc_id row =? id) with false by lia. by rewrite IH.
Qed.

(** X25: "saved but not indexed". When the file passes the checks and
    [index_document] then fails, [upload_document] answers with status 500,
    but the document row has been stored, without an embedding reference,
    and its id is used up; the vector index is as before. *)
Theorem upload_document_saved_not_indexed E P file user_id a content w' e :
  upload_size file <= MAX_FILE_SIZE ->
  extract_text_from_file P file = inr content ->
  (50 <= py_len (strip content))%nat ->
  index_document E (next_document_id a) (upload_filename file) content (world a)
    = (w', inl e) ->
  exists a',
    upload_document E P file user_id a =
      (a', inl {| status_code := 500;
                  detail := "Document saved but indexing failed: " +:+ str_exn e |}) /\
    documents_table a' =
      documents_table a ++
      [{| doc_id := next_document_id a; doc_filename := upload_filename file;
          doc_content := content; doc_user_id := user_id;
          doc_embedding_id := None |}] /\
    next_document_id a' = next_document_id a + 1 /\
    index (rag (world a')) = index (rag (world a)) /\
    chat_history_table a' = chat_history_table a.
Proof.
  intros Hsize Hx Hlen Hidx. unfold upload_document.
  replace (MAX_FILE_SIZE <? upload_size file) with false by lia.
  rewrite (extract_ok_extension P file content Hx), Hx. simpl.
  replace (_ <? 50)%nat with false by (symmetry; apply Nat.ltb_ge; lia).
  simpl. rewrite Hidx. eexists. split; [reflexivity|]. simpl.
  apply index_document_err in Hidx as [Hix _]. done.
Qed.

Lemma upload_document_saved_not_indexed_witness :
  exists a' err,
    upload_document env_embed_flaky parsers_demo file_notes 1 app_fresh
      = (a', inl err) /\
    status_code err = 500 /\
    map doc_embedding_id (documents_table a') = [None].
Proof.
  destruct (upload_document_saved_not_indexed env_embed_flaky parsers_demo
              file_notes 1 app_fresh sixty
              (index_document env_embed_flaky 1 "Notes.TXT" sixty world_fresh).1
              (ConnectionError "connection refused"))
    as (a' & Hup & Htable & _).
  - discriminate.
  - reflexivity.
  - vm_compute. lia.
  - vm_compute; reflexivity.
  - exists a'. eexists. split; [exact Hup|]. split; [reflexivity|].
    by rewrite Htable.
Defined.

(** X26: a successful upload. When the file passes the checks and
    [index_document] succeeds, [upload_document] returns the stored row: its
    id is the next free id, its filename is the uploaded name in its original
    letter case, and its embedding reference is the one that
    [index_document] returned for that id. The row is appended to the table,
    earlier rows are untouched, and ids stay fresh. *)
Theorem upload_document_success E P file user_id a content w' ref :
  fresh_ids a ->
  upload_size file <= MAX_FILE_SIZE ->
  extract_text_from_file P file = inr content ->
  (50 <= py_len (strip content))%nat ->
  index_document E (next_document_id a) (upload_filename file) content (world a)
    = (w', inr ref) ->
  let document :=
    {| doc_id := next_document_id a; doc_filename := upload_filename file;
       doc_content := content; doc_user_id := user_id;
       doc_embedding_id := Some ref |} in
  exists a',
    upload_document E P file user_id a = (a', inr document) /\
    documents_table a' = documents_table a ++ [document] /\
    world a' = w' /\
    ref = "doc_" +:+ pretty (next_document_id a) +:+ "_" +:+
          pretty (length (split_text E content)) +:+ "_chunks" /\
    fresh_ids a'.
Proof.
  intros Hfresh Hsize Hx Hlen Hidx. cbv zeta. unfold upload_document.
  replace (MAX_FILE_SIZE <? upload_size file) with false by lia.
  rewrite (extract_ok_extension P file content Hx), Hx. simpl.
  replace (_ <? 50)%nat with false by (symmetry; apply Nat.ltb_ge; lia).
  simpl. rewrite Hidx. eexists. split; [reflexivity|]. simpl.
  assert (Htable : set_embedding_id (next_document_id a) ref
            (documents_table a ++
             [{| doc_id := next_document_id a;
                 doc_filename := upload_filename file; doc_content := content;
                 doc_user_id := user_id; doc_embedding_id := None |}])
          = documents_table a ++
            [{| doc_id := next_document_id a;
                doc_filename := upload_filename file; doc_content := content;
                doc_user_id := user_id; doc_embedding_id := Some ref |}]).
  { unfold set_embedding_id at 1. rewrite map_app.
    fold (set_embedding_id (next_document_id a) ref (documents_table a)).
    rewrite set_embedding_id_fresh by exact Hfresh.
    simpl. by rewrite Z.eqb_refl. }
  rewrite Htable. split; [done|]. split; [done|]. split.
  - unfold index_document in Hidx. unfold bind at 1 in Hidx.
    destruct (embed_chunks _ _ _ _ _ _ _) as [w1 [e1|embs]]; [done|].
    unfold index_add, _save_index in Hidx. unfold_m.
    destruct (faiss_add _ _); [done|]. by injection Hidx as _ <-.
  - unfold fresh_ids in *. simpl. apply Forall_app. split.
    + eapply Forall_impl; [exact Hfresh|]. simpl. intros; lia.
    + constructor; [simpl; lia|constructor].
Qed.

Lemma upload_document_success_witness :
  exists a' document,
    upload_document env_healthy parsers_demo file_notes 1 app_fresh
      = (a', inr document) /\
    doc_id document = 1 /\ doc_filename document = "Notes.TXT" /\
    doc_embedding_id document = Some "doc_1_15_chunks".
Proof.
  destruct (upload_document_success env_healthy parsers_demo file_notes 1
              app_fresh sixty
              (index_document env_healthy 1 "Notes.TXT" sixty world_fresh).1
              "doc_1_15_chunks")
    as (a' & Hup & _).
  - constructor.
  - discriminate.
  - reflexivity.
  - vm_compute. lia.
  - vm_compute; reflexivity.
  - exists a'. eexists. split; [exact Hup|]. by repeat split.
Defined.

(** ** The chat endpoint *)

(** X27: the chat history records answers, not cache hits. With a reachable
    cache holding no live entry for the question and a retrieval that finds
    a non-empty context, asking the same question twice (the second time
    before the entry expires) adds exactly one row to the history: the first
    call stores its answer, whether generated or an error text, and the
    second, served from the cache, stores nothing. The documents table is
    not touched. *)
Theorem query_chat_twice_records_once E user_id user_query a r w1 context srcs t :
  redis_client (world a) = Some r -> reachable r = true ->
  (_get_cached_response E user_query (world a)).2 = inr None ->
  get_context_for_query E user_query (world a) = (w1, inr (context, srcs)) ->
  context <> EmptyString ->
  clock (world a) <= t < clock (world a) + CACHE_TTL ->
  exists a1 a2 answer sources,
    query_chat E user_id user_query a = (a1, inr (answer, sources, false)) /\
    query_chat E user_id user_query (app_at_time a1 t)
      = (a2, inr (answer, sources, true)) /\
    chat_history_table a2 =
      chat_history_table a ++
      [{| chat_user_id := user_id; chat_query := user_query;
          chat_response := answer; chat_sources := sources |}] /\
    documents_table a2 = documents_table a.
Proof.
  rewrite _get_cached_response_run. simpl.
  intros Hr Hup [= Hmiss] Hctx Hne Ht.
  assert (Hfirst : exists w2 answer sources,
            query E user_query (world a) = (w2, inr (answer, sources, false)) /\
            cache_lookup E (at_time w2 t) user_query
              = Some {| response := answer; sources := sources |}).
  { rewrite query_run, Hmiss, Hctx. destruct (decide _) as [|_]; [done|].
    pose proof (get_context_frame E _ _ _ _ Hctx) as (_ & Hr1 & Hc1).
    destruct (post_generate E (_build_prompt user_query context) w1)
      as [w2 [e|text]] eqn:Hgen;
      apply post_generate_frame in Hgen as (_ & Hr2 & Hc2 & _);
      eexists _, _, _; (split; [reflexivity|]);
      apply cache_lookup_after_store with r; congruence || lia. }
  destruct Hfirst as (w2 & answer & sources & Hq1 & Hhit).
  apply query_hit in Hhit. simpl in Hhit.
  unfold query_chat. rewrite Hq1. simpl.
  eexists _, _, answer, sources. split; [reflexivity|].
  simpl. rewrite Hhit. simpl. by repeat split.
Qed.

Lemma query_chat_twice_records_once_witness :
  exists a1 a2 answer sources,
    query_chat env_generate_down 1 "what?" app_one_doc
      = (a1, inr (answer, sources, false)) /\
    query_chat env_generate_down 1 "what?" (app_at_time a1 10)
      = (a2, inr (answer, sources, true)) /\
    length (chat_history_table a2) = 1%nat.
Proof.
  destruct (query_chat_twice_records_once env_generate_down 1 "what?" app_one_doc
              redis_empty
              (get_context_for_query env_generate_down "what?" world_one_doc).1
              ("aaaa" +:+ SEPARATOR +:+ "bb")
              [{| src_document_id := 7; src_filename := "a.txt";
                  relevance_score := (1 # 2)%Q |}] 10)
    as (a1 & a2 & answer & sources & H1 & H2 & Hh & _).
  - reflexivity.
  - reflexivity.
  - reflexivity.
  - vm_compute; reflexivity.
  - discriminate.
  - vm_compute. split; [discriminate|reflexivity].
  - exists a1, a2, answer, sources. split; [exact H1|]. split; [exact H2|].
    by rewrite Hh.
Defined.

(** ** The assistant core *)

(** The first [n] characters of a text, joined and cut again, are those
    [n] characters. *)
Lemma chars_take n s :
  chars (str_concat (take n (chars s))) = take n (chars s).
Proof.
  apply chars_str_concat.
  pose proof (chars_char_list s) as Hl. rewrite <- (take_drop n (chars s)) in Hl.
  by apply char_list_app in Hl as [? _].
Qed.

(** X28: [summarize] with a non-negative [max_length] returns a text of at
    most [max_length] characters as it is, and cuts a longer one to its
    first [max_length] characters followed by three dots, so the result
    never has more than [max_length + 3] characters; summarizing a summary
    changes nothing. Lengths and cuts count characters, not bytes. *)
Theorem summarize_spec text max_length :
  0 <= max_length ->
  (Z.of_nat (py_len text) <= max_length -> summarize text max_length = text) /\
  (max_length < Z.of_nat (py_len text) ->
   summarize text max_length =
     str_concat (take (Z.to_nat max_length) (chars text)) +:+ "..." /\
   Z.of_nat (py_len (summarize text max_length)) = max_length + 3) /\
  Z.of_nat (py_len (summarize text max_length)) <= max_length + 3 /\
  summarize (summarize text max_length) max_length = summarize text max_length.
Proof.
  intros Hm.
  assert (Hshort : forall t, Z.of_nat (py_len t) <= max_length ->
                             summarize t max_length = t).
  { intros t Ht. unfold summarize.
    by replace (Z.of_nat (py_len t) <=? max_length) with true by lia. }
  assert (Hlong : forall t, max_length < Z.of_nat (py_len t) ->
            summarize t max_length =
              str_concat (take (Z.to_nat max_length) (chars t)) +:+ "...").
  { intros t Ht. unfold summarize, py_prefix.
    replace (Z.of_nat (py_len t) <=? max_length) with false by lia.
    by replace (0 <=? max_length) with true by lia. }
  assert (Hchars : forall t, max_length < Z.of_nat (py_len t) ->
            chars (str_concat (take (Z.to_nat max_length) (chars t)) +:+ "...") =
            take (Z.to_nat max_length) (chars t) ++ ["."; "."; "."]).
  { intros t Ht. rewrite chars_app by done. by rewrite chars_take. }
  assert (Hlen : forall t, max_length < Z.of_nat (py_len t) ->
            Z.of_nat (py_len (summarize t max_length)) = max_length + 3).
  { intros t Ht. rewrite (Hlong _ Ht). unfold py_len in *.
    rewrite (Hchars _ Ht), length_app, length_take. simpl. lia. }
  split; [apply Hshort|]. split; [|split].
  - intros Ht. split; [by apply Hlong|by apply Hlen].
  - destruct (Z_le_gt_dec (Z.of_nat (py_len text)) max_length) as [Hle|Hgt].
    + rewrite (Hshort _ Hle). lia.
    + rewrite Hlen; lia.
  - destruct (Z_le_gt_dec (Z.of_nat (py_len text)) max_length) as [Hle|Hgt].
    + by rewrite !(Hshort _ Hle).
    + assert (Hgt' : max_length < Z.of_nat (py_len text)) by lia.
      rewrite Hlong by (rewrite (Hlen _ Hgt'); lia).
      rewrite (Hlong _ Hgt'), (Hchars _ Hgt').
      rewrite take_app_length'; [by rewrite <- (chars_take _ text), str_concat_chars|].
      rewrite length_take. unfold py_len in Hgt'. lia.
Qed.

Lemma summarize_spec_witness :
  summarize "Ciao, come funziona Veritas Pro?" 4 = "Ciao..." /\
  summarize "Ciao..." 4 = "Ciao..." /\
  String.length (str_concat (replicate 3 E_ACUTE)) = 6%nat /\
  summarize (str_concat (replicate 3 E_ACUTE)) 4 = str_concat (replicate 3 E_ACUTE).
Proof.
  split; [|split; [|split]].
  - apply (proj1 (proj1 (proj2 (summarize_spec "Ciao, come funziona Veritas Pro?"
                                  4 ltac:(discriminate))) eq_refl)).
  - apply (proj2 (proj2 (proj2 (summarize_spec "Ciao, come funziona Veritas Pro?"
                                  4 ltac:(discriminate))))).
  - reflexivity.
  - apply (proj1 (summarize_spec (str_concat (replicate 3 E_ACUTE)) 4
                    ltac:(discriminate))).
    vm_compute. discriminate.
Defined.

Lemma analyze_all_history inputs : forall ai,
  conversation_history (analyze_all inputs ai) =
    conversation_history ai ++ flat_map exchange inputs /\
  temperature (analyze_all inputs ai) = temperature ai /\
  model_name (analyze_all inputs ai) = model_name ai.
Proof.
  induction inputs as [|[input_text [[now1 now2] now3]] rest IH]; intros ai.
  - simpl. by rewrite app_nil_r.
  - change (analyze_all ((input_text, (now1, now2, now3)) :: rest) ai)
      with (analyze_all rest (analyze now1 now2 now3 input_text ai).1).
    destruct (IH (analyze now1 now2 now3 input_text ai).1) as (-> & -> & ->).
    simpl. by rewrite <- !app_assoc.
Qed.

Lemma exchange_counts inputs :
  length (flat_map exchange inputs) = (2 * length inputs)%nat /\
  length (filter (fun m => role m = "user") (flat_map exchange inputs))
    = length inputs /\
  length (filter (fun m => role m = "assistant") (flat_map exchange inputs))
    = length inputs.
Proof.
  induction inputs as [|[input_text [[now1 now2] now3]] rest (IH1 & IH2 & IH3)];
    [done|].
  change (flat_map exchange ((input_text, (now1, now2, now3)) :: rest))
    with (exchange (input_text, (now1, now2, now3)) ++ flat_map exchange rest).
  rewrite !filter_app, !length_app, IH1, IH2, IH3. simpl length.
  split; [lia|]. split; reflexivity.
Qed.

(** X29: the conversation history and its statistics. Every [analyze] call
    appends exactly two messages, the user's input and then the assistant's
    answer, and changes nothing else; so after [n] calls the statistics
    count [2n] more messages, [n] more of the user and [n] more of the
    assistant, and after [clear_history] they count exactly [2n], [n] and
    [n]. *)
Theorem analyze_all_stats inputs ai :
  let ai' := analyze_all inputs ai in
  let n := length inputs in
  conversation_history ai' = conversation_history ai ++ flat_map exchange inputs /\
  total_messages (get_stats ai') = (total_messages (get_stats ai) + 2 * n)%nat /\
  user_messages (get_stats ai') = (user_messages (get_stats ai) + n)%nat /\
  ai_messages (get_stats ai') = (ai_messages (get_stats ai) + n)%nat /\
  get_stats (analyze_all inputs (clear_history ai)) =
    {| total_messages := 2 * n; stats_model := model_name ai;
       stats_temperature := temperature ai;
       user_messages := n; ai_messages := n |}.
Proof.
  cbv zeta. destruct (exchange_counts inputs) as (Hc1 & Hc2 & Hc3).
  destruct (analyze_all_history inputs ai) as (Hh & _ & _).
  destruct (analyze_all_history inputs (clear_history ai)) as (Hh' & Ht' & Hm').
  unfold get_stats. cbn [total_messages user_messages ai_messages].
  rewrite Hh, Hh', Ht', Hm', !filter_app, !length_app, Hc1, Hc2, Hc3.
  simpl. repeat split; try lia; done.
Qed.

Lemma in_range_bool t : Qle_bool 0 t && Qle_bool t 1 = true <-> in_range t.
Proof. unfold in_range. by rewrite andb_true_iff, !Qle_bool_iff. Qed.

Lemma set_temperature_accepts t ai :
  in_range t ->
  set_temperature t ai =
    ({| model_name := model_name ai; temperature := t;
        conversation_history := conversation_history ai;
        system_prompt := system_prompt ai |}, inr tt).
Proof.
  intros Ht%in_range_bool. unfold set_temperature. by rewrite Ht.
Qed.

Lemma set_temperature_refuses t ai :
  ~ in_range t ->
  set_temperature t ai =
    (ai, inl (ValueError "La temperature deve essere tra 0.0 e 1.0")).
Proof.
  intros Ht. unfold set_temperature.
  destruct (Qle_bool 0 t && Qle_bool t 1) eqn:Hb; [|done].
  by apply in_range_bool in Hb.
Qed.

Lemma default_last_cons {A} (x y : A) l :
  default x (last (y :: l)) = default y (last l).
Proof.
  destruct l as [|z l]; [done|].
  change (last (y :: z :: l)) with (last (z :: l)).
  by destruct (last_is_Some z l) as [u ->].
Qed.

(** X30: the temperature stays in range. [set_temperature] stores a value
    between 0 and 1 as the new temperature and changes nothing else; it
    refuses every other value with a [ValueError], leaving the assistant
    as it was. So whatever values are tried, the temperature is the last
    accepted value (the initial one when none was accepted), an assistant
    whose temperature is in [0,1] keeps a temperature in [0,1], and its
    history is never touched. *)
Theorem set_temperatures_keep_range ts ai :
  in_range (temperature ai) ->
  (forall t, in_range t ->
     set_temperature t ai =
       ({| model_name := model_name ai; temperature := t;
           conversation_history := conversation_history ai;
           system_prompt := system_prompt ai |}, inr tt)) /\
  (forall t, ~ in_range t ->
     set_temperature t ai =
       (ai, inl (ValueError "La temperature deve essere tra 0.0 e 1.0"))) /\
  temperature (set_temperatures ts ai) =
    default (temperature ai) (last (filter in_range ts)) /\
  in_range (temperature (set_temperatures ts ai)) /\
  conversation_history (set_temperatures ts ai) = conversation_history ai /\
  model_name (set_temperatures ts ai) = model_name ai.
Proof.
  intros Hrange.
  split; [intros t; apply set_temperature_accepts|].
  split; [intros t; apply set_temperature_refuses|].
  assert (Hrun : forall ts ai,
            temperature (set_temperatures ts ai) =
              default (temperature ai) (last (filter in_range ts)) /\
            conversation_history (set_temperatures ts ai) = conversation_history ai /\
            model_name (set_temperatures ts ai) = model_name ai).
  { clear. induction ts as [|t rest IH]; intros ai; [done|].
    simpl. rewrite filter_cons. destruct (decide (in_range t)) as [Ht|Ht].
    - rewrite (set_temperature_accepts t ai Ht). simpl.
      destruct (IH {| model_name := model_name ai; temperature := t;
                      conversation_history := conversation_history ai;
                      system_prompt := system_prompt ai |}) as (-> & -> & ->).
      simpl. by rewrite default_last_cons.
    - rewrite (set_temperature_refuses t ai Ht). simpl. apply IH. }
  destruct (Hrun ts ai) as (Ht & Hh & Hm).
  split; [done|]. split; [|done].
  rewrite Ht. destruct (last (filter in_range ts)) as [t|] eqn:Hl; [|done].
  simpl. apply last_Some_elem_of, list_elem_of_filter in Hl. tauto.
Qed.

Lemma set_temperatures_keep_range_witness :
  set_temperature (5 # 1)%Q veritas_default =
    (veritas_default, inl (ValueError "La temperature deve essere tra 0.0 e 1.0")) /\
  temperature (set_temperature (3 # 10)%Q veritas_default).1 = (3 # 10)%Q /\
  temperature (set_temperatures [(3 # 10)%Q; (5 # 1)%Q] veritas_default)
    = (3 # 10)%Q /\
  in_range (temperature (set_temperatures [(3 # 10)%Q; (5 # 1)%Q] veritas_default)).
Proof.
  pose proof (set_temperatures_keep_range [(3 # 10)%Q; (5 # 1)%Q]
                veritas_default ltac:(split; discriminate))
    as (Hacc & Hrej & Hlast & Hin & _).
  split; [|split; [|split]].
  - apply Hrej. intros [_ H]. by vm_compute in H.
  - rewrite Hacc; [reflexivity|split; discriminate].
  - exact Hlast.
  - exact Hin.
Defined.
